(** * find_toasts.py: the toast call-site scanner

    A shallow embedding of [find_toast_usages] (src/find_toasts.py) and the
    properties of its per-file core: candidate detection with the compiled
    pattern [toast_pattern], line numbering, the parenthesis counter that
    recovers the argument text, and the whitespace clean-up and truncation of
    the reported arguments.

    Python strings are sequences of Unicode code points; a character is
    modelled by its code point (an [N]) and a string by a list of them.
    Python integers are [Z] where the interpreter allows them to be negative
    (indices given to slices), and [nat] for offsets a match object stores. *)

From Stdlib Require Import ZArith NArith String Ascii Lia Sorted.
From stdpp Require Import base option list.

Local Open Scope N_scope.

(** ** Characters and strings *)

Abbreviation char := N (only parsing).
Abbreviation text := (list N) (only parsing).

(** A Rocq string literal read as a Python string (ASCII literals only). *)
Definition str (s : string) : text :=
  List.map N_of_ascii (list_ascii_of_string s).

(** The characters the program names: newline, space, double quote, single
    quote, the two parentheses, the dot and the backquote. *)
Definition NL : char := 10.
Definition SPACE : char := 32.
Definition DQUOTE : char := 34.
Definition SQUOTE : char := 39.
Definition LPAREN : char := 40.
Definition RPAREN : char := 41.
Definition DOT : char := 46.
Definition BQUOTE : char := 96.

(** [str.isspace] on one character, which is also the class [\s] of a
    pattern compiled from a [str]: CPython's [_PyUnicode_IsWhitespace]. *)
Definition isspace (c : char) : bool :=
  ((9 <=? c) && (c <=? 13)) || ((28 <=? c) && (c <=? 32))
  || (c =? 133) || (c =? 160) || (c =? 5760)
  || ((8192 <=? c) && (c <=? 8202))
  || (c =? 8232) || (c =? 8233) || (c =? 8239) || (c =? 8287) || (c =? 12288).

(** Index normalisation of a slice bound, as [PySlice_AdjustIndices] does
    for step 1: a negative bound counts from the end, and both are clipped
    to [0, len]. *)
Definition adjust_index (len i : Z) : Z :=
  if (i <? 0)%Z then Z.max 0 (len + i) else Z.min i len.

(** [s[lo:hi]] *)
Definition slice (s : text) (lo hi : Z) : text :=
  let len := Z.of_nat (length s) in
  let a := adjust_index len lo in
  let b := adjust_index len hi in
  take (Z.to_nat (b - a)) (drop (Z.to_nat a) s).

(** [s[lo:]] *)
Definition slice_from (s : text) (lo : Z) : text :=
  slice s lo (Z.of_nat (length s)).

(** [s[:hi]] *)
Definition slice_to (s : text) (hi : Z) : text := slice s 0 hi.

(** [s.count(c, lo, hi)] for a one-character needle [c]. *)
Definition count (s : text) (c : char) (lo hi : Z) : Z :=
  Z.of_nat (length (filter (λ x, x = c) (slice s lo hi))).

(** [s.split()]: maximal runs of non-whitespace characters, in order.
    [word] is the run being read. *)
Fixpoint split_from (s : text) (word : text) : list text :=
  match s with
  | [] => match word with [] => [] | _ => [word] end
  | c :: s' =>
      if isspace c
      then match word with
           | [] => split_from s' []
           | _ => word :: split_from s' []
           end
      else split_from s' (word ++ [c])
  end.

Definition split (s : text) : list text := split_from s [].

(** [sep.join(words)] *)
Fixpoint join (sep : text) (words : list text) : text :=
  match words with
  | [] => []
  | [w] => w
  | w :: ws => w ++ sep ++ join sep ws
  end.

(** ** Exceptions *)

Inductive exn := TypeError | IndexError.

Inductive result (A : Type) :=
| Ok (a : A)
| Raise (e : exn).
Arguments Ok {A} a.
Arguments Raise {A} e.

#[global] Instance result_ret : MRet result := λ A a, Ok a.
#[global] Instance result_bind : MBind result :=
  λ A B f r, match r with Ok a => f a | Raise e => Raise e end.

(** ** The [re] module: a backtracking matcher

    The fragment of the pattern language the two patterns of the program
    use. Alternation and the optional group try their left/present branch
    first; [RStar] is the greedy [c*] and [RStarLazy] the lazy [c*?] of a
    one-character class. *)

Inductive regex :=
| RLit (l : text)
| RClass (cls : char → bool)
| RCat (r1 r2 : regex)
| RAlt (r1 r2 : regex)
| ROpt (r : regex)
| RStar (cls : char → bool)
| RStarLazy (cls : char → bool)
| RGroup (i : nat) (r : regex).

(** Spans of the capturing groups 1, 2, ...; [None] for a group that did
    not take part in the match. *)
Abbreviation captures := (list (option (nat * nat))) (only parsing).

(** [lit l s]: [s] with the literal prefix [l] removed. *)
Fixpoint lit (l s : text) : option text :=
  match l, s with
  | [], _ => Some s
  | a :: l', b :: s' => if a =? b then lit l' s' else None
  | _ :: _, [] => None
  end.

Section Matcher.
Context {X : Type}.

(** [c*] then [k]: the longest run first, giving characters back one at a
    time while [k] fails. *)
Fixpoint star_greedy (cls : char → bool) (s : text) (pos : nat)
    (k : text → nat → option X) : option X :=
  match s with
  | c :: s' =>
      if cls c
      then match star_greedy cls s' (S pos) k with
           | Some x => Some x
           | None => k s pos
           end
      else k s pos
  | [] => k s pos
  end.

(** [c*?] then [k]: the shortest run first, taking one more character
    each time [k] fails. *)
Fixpoint star_lazy (cls : char → bool) (s : text) (pos : nat)
    (k : text → nat → option X) : option X :=
  match k s pos with
  | Some x => Some x
  | None =>
      match s with
      | c :: s' => if cls c then star_lazy cls s' (S pos) k else None
      | [] => None
      end
  end.

(** [rmatch r s pos caps k]: match [r] at the head of [s] (which is the
    subject from offset [pos] on), then continue with [k]. A failure of
    [k] makes the matcher backtrack; the captures of an abandoned branch
    are dropped with it. *)
Fixpoint rmatch (r : regex) (s : text) (pos : nat) (caps : captures)
    (k : text → nat → captures → option X) : option X :=
  match r with
  | RLit l =>
      match lit l s with
      | Some s' => k s' (pos + length l)%nat caps
      | None => None
      end
  | RClass cls =>
      match s with
      | c :: s' => if cls c then k s' (S pos) caps else None
      | [] => None
      end
  | RCat r1 r2 =>
      rmatch r1 s pos caps (λ s' pos' caps', rmatch r2 s' pos' caps' k)
  | RAlt r1 r2 =>
      match rmatch r1 s pos caps k with
      | Some x => Some x
      | None => rmatch r2 s pos caps k
      end
  | ROpt r1 =>
      match rmatch r1 s pos caps k with
      | Some x => Some x
      | None => k s pos caps
      end
  | RStar cls => star_greedy cls s pos (λ s' pos', k s' pos' caps)
  | RStarLazy cls => star_lazy cls s pos (λ s' pos', k s' pos' caps)
  | RGroup i r1 =>
      rmatch r1 s pos caps
        (λ s' pos' caps', k s' pos' (<[pred i := Some (pos, pos')]> caps'))
  end.
End Matcher.

(** A compiled pattern: the expression and its number of groups. *)
Record pattern := { p_regex : regex; p_groups : nat }.

(** A match object: the subject string, the span of the whole match and the
    spans of the groups. *)
Record Match := {
  m_string : text;
  m_span : nat * nat;
  m_groups : captures
}.

Definition m_start (m : Match) : nat := fst (m_span m).
Definition m_end (m : Match) : nat := snd (m_span m).

(** Span of group [i]; group 0 is the whole match. [IndexError] for a group
    the pattern does not have. *)
Definition group_span (m : Match) (i : nat) : result (option (nat * nat)) :=
  match i with
  | O => Ok (Some (m_span m))
  | S j => match m_groups m !! j with
           | Some sp => Ok sp
           | None => Raise IndexError
           end
  end.

(** [m.group(i)]: the text of the group, [None] if it did not take part. *)
Definition group (m : Match) (i : nat) : result (option text) :=
  sp ← group_span m i;
  mret (match sp with
        | Some (a, b) => Some (take (b - a) (drop a (m_string m)))
        | None => None
        end).

(** [m.start(i)]: where the group starts, -1 if it did not take part. *)
Definition start (m : Match) (i : nat) : result Z :=
  sp ← group_span m i;
  mret (match sp with
        | Some (a, _) => Z.of_nat a
        | None => (-1)%Z
        end).

(** One attempt of the pattern at offset [pos], [rest] being the subject
    from [pos] on. With [must_advance] an empty match is refused. *)
Definition match_at (p : pattern) (content rest : text) (pos : nat)
    (must_advance : bool) : option Match :=
  rmatch (p_regex p) rest pos (replicate (p_groups p) None)
    (λ _ e caps,
       if must_advance && (e =? pos)%nat then None
       else Some {| m_string := content; m_span := (pos, e); m_groups := caps |}).

(** [p.finditer(content)] from offset [pos] on: the matches from left to
    right, without overlap. The search for the next match starts where the
    previous one ended ([resume]); after an empty match it starts at the same
    offset but must advance there. *)
Fixpoint finditer_from (p : pattern) (content rest : text) (pos resume : nat)
    : list Match :=
  let continue resume' :=
    match rest with
    | [] => []
    | _ :: rest' => finditer_from p content rest' (S pos) resume'
    end in
  if (pos <? resume)%nat then continue resume
  else
    match match_at p content rest pos false with
    | None => continue resume
    | Some m =>
        if (m_end m =? pos)%nat
        then m :: match match_at p content rest pos true with
                  | None => continue pos
                  | Some m' => m' :: continue (m_end m')
                  end
        else m :: continue (m_end m)
    end.

Definition finditer (p : pattern) (content : text) : list Match :=
  finditer_from p content content 0 0.

(** [p.findall(s)] for a pattern without groups: the texts of the matches.
    The subject is a Python value; [None] is not a string. *)
Definition findall (p : pattern) (s : option text) : result (list text) :=
  match s with
  | None => Raise TypeError
  | Some s =>
      Ok (List.map (λ m, take (m_end m - m_start m) (drop (m_start m) s))
            (finditer p s))
  end.

(** ** The program *)

Infix ">>>" := RCat (at level 60, right associativity).

(** The alternation [l1|l2|...] of literals, tried from left to right. *)
Fixpoint alternatives (l : text) (ls : list text) : regex :=
  match ls with
  | [] => RLit l
  | l' :: ls' => RAlt (RLit l) (alternatives l' ls')
  end.

(** The member names the pattern accepts after the dot, in its order. *)
Definition variant_names : list text :=
  List.map str ["error"; "info"; "warning"; "loading"; "custom"; "message"]%string.

Definition any_char (c : char) : bool := isspace c || negb (isspace c).

(** [toast(?:\.(success|error|info|warning|loading|custom|message))?\s*\(([\s\S]*?)\)]
    ([re.MULTILINE] only changes the anchors, and the pattern has none). *)
Definition toast_pattern : pattern :=
  {| p_regex :=
       RLit (str "toast")
       >>> ROpt (RLit [DOT]
                 >>> RGroup 1 (alternatives (str "success") variant_names))
       >>> RStar isspace
       >>> RLit [LPAREN]
       >>> RGroup 2 (RStarLazy any_char)
       >>> RLit [RPAREN];
     p_groups := 2 |}.

Definition is_quote (c : char) : bool :=
  (c =? SQUOTE) || (c =? DQUOTE) || (c =? BQUOTE).

(** The dot of a pattern compiled without [re.DOTALL]. *)
Definition not_newline (c : char) : bool := negb (c =? NL).

(** The string-literal pattern: a quote, [.*?], a quote. *)
Definition quoted_pattern : pattern :=
  {| p_regex := RClass is_quote >>> RStarLazy not_newline >>> RClass is_quote;
     p_groups := 0 |}.

(** Truth value of a string-or-[None]. *)
Definition truthy (v : option text) : bool :=
  match v with
  | Some (_ :: _) => true
  | _ => false
  end.

(** One entry of [usage_list]. *)
Record usage := {
  file : text;
  line : Z;
  type : text;
  args : text
}.

(** The counter loop over [content[params_start_idx:]]: [chars] is what is
    left to read, [balance] and [full_args] are the loop's variables, and
    the result is [full_args] when the loop ends or breaks. *)
Fixpoint args_loop (chars : text) (balance : Z) (full_args : text) : text :=
  match chars with
  | [] => full_args
  | char :: chars' =>
      let balance :=
        if char =? LPAREN then (balance + 1)%Z
        else if char =? RPAREN then (balance - 1)%Z
        else balance in
      if (balance <? 0)%Z then full_args
      else args_loop chars' balance (full_args ++ [char])
  end.

(** The clean-up of [full_args]: whitespace, then the cut at 100. *)
Definition clean_up (full_args : text) : text :=
  let full_args := join [SPACE] (split full_args) in
  if (100 <? Z.of_nat (length full_args))%Z
  then slice_to full_args 100 ++ str "..."
  else full_args.

(** The body of [for match in matches]: the entry appended for [match]. *)
Definition process_match (filepath content : text) (m : Match) : result usage :=
  start_index ← start m 0;
  let line_number := (count content NL 0 start_index + 1)%Z in
  g1 ← group m 1;
  let method := if truthy g1 then default (str "default") g1 else str "default" in
  args ← group m 2;
  strings ← findall quoted_pattern args;
  let message := default (str "Dynamic/Complex") (head strings) in
  params_start_idx ← start m 2;
  let full_args := args_loop (slice_from content params_start_idx) 0 [] in
  let full_args := clean_up full_args in
  mret {| file := filepath; line := line_number;
          type := method; args := full_args |}.

(** The [try] block for one file whose text was read: the entries are
    appended to [usage_list] one by one, so those appended before an
    exception stay; the exception, if any, is what the handler prints. *)
Fixpoint scan_matches (filepath content : text) (matches : list Match)
    (usage_list : list usage) : list usage * option exn :=
  match matches with
  | [] => (usage_list, None)
  | m :: matches' =>
      match process_match filepath content m with
      | Ok u => scan_matches filepath content matches' (usage_list ++ [u])
      | Raise e => (usage_list, Some e)
      end
  end.

Definition scan_content (filepath content : text) (usage_list : list usage)
    : list usage * option exn :=
  scan_matches filepath content (finditer toast_pattern content) usage_list.

(** [find_toast_usages], given the files the walk keeps (not under
    node_modules or .git, with one of the four extensions) and their
    texts, in the order of the walk. The second component collects what
    the handler printed. *)
Fixpoint scan_files (files : list (text * text)) (usage_list : list usage)
    : list usage * list (text * exn) :=
  match files with
  | [] => (usage_list, [])
  | (filepath, content) :: files' =>
      let '(usage_list, e) := scan_content filepath content usage_list in
      let '(usage_list, printed) := scan_files files' usage_list in
      (usage_list,
       match e with Some e => (filepath, e) :: printed | None => printed end)
  end.

Definition find_toast_usages (files : list (text * text)) : list usage :=
  fst (scan_files files []).

(** The entries one text adds to an empty [usage_list]. *)
Definition usages_of (filepath content : text) : list usage :=
  fst (scan_content filepath content []).


(** ** Direct description of a match of [toast_pattern]

    What the backtracking matcher computes on this pattern, written without
    continuations; [toast_match_at] below proves the two equal. *)

(** Length of the longest prefix of [s] inside the class. *)
Fixpoint run_length (cls : char → bool) (s : text) : nat :=
  match s with
  | c :: s' => if cls c then S (run_length cls s') else 0%nat
  | [] => 0%nat
  end.

(** Offset of the first [c] in [s]. *)
Fixpoint find_char (c : char) (s : text) : option nat :=
  match s with
  | [] => None
  | x :: s' => if x =? c then Some 0%nat else S <$> find_char c s'
  end.

(** [\s*\((...)\)] at the head of [s]: the number of whitespace characters
    before the parenthesis and the length of the group. *)
Definition call_tail (s : text) : option (nat * nat) :=
  let n := run_length isspace s in
  s' ← lit [LPAREN] (drop n s);
  i ← find_char RPAREN s';
  Some (n, i).

(** The first member name, in the pattern's order, after which the rest of
    the pattern matches. *)
Fixpoint member_tail (names : list text) (s : text)
    : option (text * (nat * nat)) :=
  match names with
  | [] => None
  | v :: names' =>
      match lit v s ≫= call_tail with
      | Some ni => Some (v, ni)
      | None => member_tail names' s
      end
  end.

Definition all_names : list text := str "success" :: variant_names.

(** The match object of a call at offset [pos] with the member [member]
    (if any), [n] whitespace characters before the parenthesis and [i]
    characters up to the first closing parenthesis. *)
Definition toast_match_of (content : text) (pos : nat)
    (member : option text) (n i : nat) : Match :=
  let a := match member with
           | Some v => (pos + 5 + 1 + length v + n + 1)%nat
           | None => (pos + 5 + n + 1)%nat
           end in
  {| m_string := content;
     m_span := (pos, a + i + 1)%nat;
     m_groups :=
       [(λ v, (pos + 5 + 1, pos + 5 + 1 + length v)%nat) <$> member;
        Some (a, a + i)%nat] |}.

Definition toast_match (content rest : text) (pos : nat) : option Match :=
  s1 ← lit (str "toast") rest;
  match lit [DOT] s1 ≫= member_tail all_names with
  | Some (v, (n, i)) => Some (toast_match_of content pos (Some v) n i)
  | None =>
      '(n, i) ← call_tail s1;
      Some (toast_match_of content pos None n i)
  end.

(** The text of a call: the identifier, the member access if any, the
    whitespace, and the parenthesised part up to the first closing
    parenthesis. *)
Definition call_text (member : option text) (ws body : text) : text :=
  str "toast" ++ from_option (λ v, DOT :: v) [] member
  ++ ws ++ LPAREN :: body ++ [RPAREN].

(** A call up to and including its opening parenthesis. *)
Definition call_open (member : option text) (ws : text) : text :=
  str "toast" ++ from_option (λ v, DOT :: v) [] member ++ ws ++ [LPAREN].

(** Offset of the arguments of a match: where group 2 starts. *)
Definition params_start (m : Match) : nat :=
  match m_groups m !! 1%nat with
  | Some (Some (a, _)) => a
  | _ => 0%nat
  end.

(** ** Notions the properties are stated with *)

(** The running parenthesis depth: from [d], one character further. *)
Definition step_depth (d : Z) (c : char) : Z :=
  if c =? LPAREN then (d + 1)%Z
  else if c =? RPAREN then (d - 1)%Z
  else d.

(** Depth after reading [s], starting from 0. *)
Definition depth (s : text) : Z := foldl step_depth 0%Z s.

(** Offset [k] of [chars] holds a closing parenthesis read at depth 0:
    the counter would go negative there. *)
Definition closer (chars : text) (k : nat) : Prop :=
  chars !! k = Some RPAREN ∧ depth (take k chars) = 0%Z.

Definition first_closer (chars : text) (k : nat) : Prop :=
  closer chars k ∧ ∀ j, (j < k)%nat → ¬ closer chars j.

(** Only whitespace, and no whitespace at all. *)
Abbreviation all_space ws := (Forall (λ c, isspace c = true) ws).
Abbreviation no_space w := (Forall (λ c, isspace c = false) w).

(** A word of [split]: not empty, no whitespace in it. *)
Definition word (w : text) : Prop := w ≠ [] ∧ no_space w.

(** Number of newline characters of [s]. *)
Definition newline_count (s : text) : nat :=
  length (filter (λ c, c = NL) s).

(** [" ".join(s.split())] *)
Definition normalize (s : text) : text := join [SPACE] (split s).

(** The whitespace-normalized text, after the words of the specification
    and without [split] or [join], to compare the program with: every run
    of whitespace characters is collapsed to a single space ... *)
Fixpoint collapse_runs (s : text) (in_run : bool) : text :=
  match s with
  | [] => []
  | c :: s' =>
      if isspace c
      then if in_run then collapse_runs s' true
           else SPACE :: collapse_runs s' true
      else c :: collapse_runs s' false
  end.

(** ... and the whitespace at the start and at the end is removed. *)
Definition lstrip (s : text) : text := drop (run_length isspace s) s.
Definition rstrip (s : text) : text := reverse (lstrip (reverse s)).
Definition strip (s : text) : text := rstrip (lstrip s).

Definition whitespace_normalized (s : text) : text :=
  strip (collapse_runs s false).

(** No two space characters in a row. *)
Definition no_space_run (t : text) : Prop :=
  ∀ i, ¬ (t !! i = Some SPACE ∧ t !! S i = Some SPACE).

(** The same, by recursion on the text. *)
Fixpoint nds (t : text) : Prop :=
  match t with
  | a :: (b :: _) as t' => ¬ (a = SPACE ∧ b = SPACE) ∧ nds t'
  | _ => True
  end.

(** No whitespace at either end. *)
Definition stripped (t : text) : Prop :=
  (∀ c, head t = Some c → isspace c = false)
  ∧ (∀ c, last t = Some c → isspace c = false).

(** The variants an entry can carry. *)
Definition variants : list text := str "default" :: all_names.

(** A string literal of the scanned language: [s] between double quotes. *)
Definition quoted (s : string) : text := [DQUOTE] ++ str s ++ [DQUOTE].

(** The text [toast(foo(bar(1,2)), "x)y")]. *)
Definition nested_call_text : text :=
  str "toast(foo(bar(1,2)), " ++ quoted "x)y" ++ str ")".

(** Reassociate concatenations to the right. *)
Ltac norm_app :=
  repeat progress (rewrite <- ?app_assoc; cbn [app from_option]).

(** ** The walk over the directory tree

    [os.walk(root_dir)] and [open(filepath).read()] are the file system's
    part: the model takes the triples [(subdir, dirs, files)] the walk yields
    (the loop never prunes [dirs], so they do not depend on it) and a
    function [read] giving the decoded text of a path, or [None] when
    opening, reading or decoding raises. *)

(** [sub in s] *)
Fixpoint contains (sub s : text) : bool :=
  match lit sub s with
  | Some _ => true
  | None =>
      match s with
      | [] => false
      | _ :: s' => contains sub s'
      end
  end.

(** [s.startswith(prefix)] *)
Definition startswith (s prefix : text) : bool :=
  match lit prefix s with
  | Some _ => true
  | None => false
  end.

(** [s.endswith(suffix)] *)
Definition endswith (s suffix : text) : bool :=
  startswith (reverse s) (reverse suffix).

(** [s.endswith(suffixes)] for a tuple of suffixes. *)
Definition endswith_any (s : text) (suffixes : list text) : bool :=
  existsb (endswith s) suffixes.

Definition SLASH : char := 47.

(** [os.path.join(a, b)] of [posixpath]. *)
Definition path_join (a b : text) : text :=
  if startswith b [SLASH] then b
  else if match a with [] => true | _ => endswith a [SLASH] end then a ++ b
  else a ++ [SLASH] ++ b.

(** The suffixes of the files that are scanned. *)
Definition extensions : list text :=
  List.map str [".tsx"; ".ts"; ".js"; ".jsx"]%string.

(** The test that skips a directory of the walk. *)
Definition skipped (subdir : text) : bool :=
  contains (str "node_modules") subdir || contains (str ".git") subdir.

(** What the handler of the [try] block was entered for: the file could not
    be read, or the scan of its text raised. *)
Inductive failure :=
| ReadFailure
| ScanFailure (e : exn).

(** How a run ends: it returns [usage_list] (with what the handler printed
    on the way), or the [print] inside the handler raises itself - the
    message cannot be encoded for the output stream, or the stream fails -
    and, nothing catching it, the run is aborted without a result. *)
Inductive outcome :=
| Returned (usage_list : list usage) (printed : list (text * failure))
| Aborted (filepath : text) (f : failure).

(** The loop [for file in files] of one directory. [print_ok filepath f]
    tells whether the handler's [print] of the report on [filepath]
    returns. *)
Fixpoint scan_dir (print_ok : text → failure → bool)
    (read : text → option text) (subdir : text)
    (files : list text) (usage_list : list usage) : outcome :=
  match files with
  | [] => Returned usage_list []
  | file :: files' =>
      if negb (endswith_any file extensions)
      then scan_dir print_ok read subdir files' usage_list
      else
        let filepath := path_join subdir file in
        let '(usage_list, raised) :=
          match read filepath with
          | None => (usage_list, Some ReadFailure)
          | Some content =>
              let '(usage_list, e) := scan_content filepath content usage_list in
              (usage_list, ScanFailure <$> e)
          end in
        let continue printed :=
          match scan_dir print_ok read subdir files' usage_list with
          | Returned usage_list printed' => Returned usage_list (printed ++ printed')
          | Aborted filepath' f => Aborted filepath' f
          end in
        match raised with
        | None => continue []
        | Some f =>
            if print_ok filepath f then continue [(filepath, f)]
            else Aborted filepath f
        end
  end.

(** The loop [for subdir, dirs, files in os.walk(root_dir)]. *)
Fixpoint walk_loop (print_ok : text → failure → bool)
    (read : text → option text)
    (walk : list (text * list text * list text)) (usage_list : list usage)
    : outcome :=
  match walk with
  | [] => Returned usage_list []
  | (subdir, dirs, files) :: walk' =>
      if skipped subdir then walk_loop print_ok read walk' usage_list
      else
        match scan_dir print_ok read subdir files usage_list with
        | Returned usage_list printed =>
            match walk_loop print_ok read walk' usage_list with
            | Returned usage_list printed' =>
                Returned usage_list (printed ++ printed')
            | Aborted filepath f => Aborted filepath f
            end
        | Aborted filepath f => Aborted filepath f
        end
  end.

(** [find_toast_usages(root_dir)] on a file system: how the run ends. *)
Definition find_toast_usages_in (print_ok : text → failure → bool)
    (read : text → option text)
    (walk : list (text * list text * list text)) : outcome :=
  walk_loop print_ok read walk [].

(** ** Notions for the properties of the walk *)

(** [sub] occurs in [s]. *)
Definition occurs_in (sub s : text) : Prop :=
  ∃ pre post, s = pre ++ sub ++ post.

(** The paths the walk opens: the files with a scanned suffix of the
    directories that are not skipped, in the order of the walk. *)
Definition opened_paths (walk : list (text * list text * list text))
    : list text :=
  walk ≫= (λ '(subdir, _, files),
    if skipped subdir then []
    else List.map (path_join subdir)
           (List.filter (λ file, endswith_any file extensions) files)).

(** Those of them that can be read, with their texts. *)
Definition readable (read : text → option text) (paths : list text)
    : list (text * text) :=
  omap (λ p, (λ content, (p, content)) <$> read p) paths.

(** Those that cannot, as the handler reports them. *)
Definition read_failures (read : text → option text) (paths : list text)
    : list (text * failure) :=
  omap (λ p, match read p with
             | None => Some (p, ReadFailure)
             | Some _ => None
             end) paths.

(** The first of them that cannot be read and whose report cannot be
    printed either. *)
Fixpoint first_unprintable (print_ok : text → failure → bool)
    (read : text → option text) (paths : list text) : option text :=
  match paths with
  | [] => None
  | p :: paths' =>
      match read p with
      | Some _ => first_unprintable print_ok read paths'
      | None =>
          if print_ok p ReadFailure then first_unprintable print_ok read paths'
          else Some p
      end
  end.

(** Not a whitespace character. *)
Definition visible (c : char) : bool := negb (isspace c).

(** ** Strings *)

Lemma lit_Some l s s' : lit l s = Some s' ↔ s = l ++ s'.
Proof.
  revert s. induction l as [|a l IH]; intros s; simpl.
  - split; congruence.
  - destruct s as [|b s]; [split; discriminate|].
    destruct (N.eqb_spec a b) as [->|Hne].
    + rewrite IH. split; congruence.
    + split; [discriminate | congruence].
Qed.

Lemma lit_app l s : lit l (l ++ s) = Some s.
Proof. by apply lit_Some. Qed.

Lemma any_char_true c : any_char c = true.
Proof. unfold any_char. by destruct (isspace c). Qed.

Lemma run_length_spec cls s :
  Forall (λ c, cls c = true) (take (run_length cls s) s)
  ∧ (∀ c, drop (run_length cls s) s !! 0%nat = Some c → cls c = false).
Proof.
  induction s as [|c s [IH1 IH2]]; simpl.
  - split; [constructor | intros ? [=]].
  - destruct (cls c) eqn:E; simpl.
    + split; [by constructor | done].
    + split; [constructor | by intros ? [= <-]].
Qed.

Lemma run_length_app cls ws s :
  Forall (λ c, cls c = true) ws →
  (∀ c, s !! 0%nat = Some c → cls c = false) →
  run_length cls (ws ++ s) = length ws.
Proof.
  intros Hws Hs. induction Hws as [|c ws Hc _ IH]; simpl.
  - destruct s as [|c s]; [done|]. simpl. by rewrite (Hs c).
  - by rewrite Hc, IH.
Qed.

Lemma find_char_Some c s i :
  find_char c s = Some i ↔ s !! i = Some c ∧ c ∉ take i s.
Proof.
  revert i. induction s as [|x s IH]; intros i; simpl.
  - split; [discriminate | by intros [[=] _]].
  - destruct (N.eqb_spec x c) as [->|Hne].
    + split.
      * intros [= <-]. split; [done | by rewrite take_0; apply not_elem_of_nil].
      * intros [_ Hnin]. destruct i; [done|]. simpl in Hnin.
        exfalso. apply Hnin. by left.
    + destruct i as [|i]; simpl.
      * split.
        -- destruct (find_char c s); discriminate.
        -- intros [[=] _]. done.
      * specialize (IH i). rewrite not_elem_of_cons.
        destruct (find_char c s) as [j|]; simpl.
        -- split.
           ++ intros [= ->]. destruct IH as [[? ?] _]; done.
           ++ intros [Hl [_ Hn]]. destruct IH as [_ IH].
              assert (Some j = Some i) as [= ->] by by apply IH.
              done.
        -- split; [discriminate|]. intros [Hl [_ Hn]].
           destruct IH as [_ IH]. by discriminate IH.
Qed.

Lemma find_char_None c s : find_char c s = None ↔ c ∉ s.
Proof.
  induction s as [|x s IH]; simpl.
  - split; [intros _; apply not_elem_of_nil | done].
  - rewrite not_elem_of_cons. destruct (N.eqb_spec x c) as [->|Hne].
    + split; [discriminate | by intros [? _]].
    + destruct (find_char c s); simpl.
      * split; [discriminate|]. intros [_ H]. by apply IH in H.
      * split; [|done]. intros _. split; [done | by apply IH].
Qed.

Lemma find_char_app c pre post :
  c ∉ pre → find_char c (pre ++ c :: post) = Some (length pre).
Proof.
  intros H. apply find_char_Some. split.
  - by rewrite lookup_app_r, Nat.sub_diag.
  - by rewrite take_app_length.
Qed.

Lemma find_char_split c s i :
  find_char c s = Some i →
  s = take i s ++ c :: drop (S i) s ∧ (c ∉ take i s) ∧ length (take i s) = i.
Proof.
  intros [Hl Hn]%find_char_Some. split_and!; [|done|].
  - by rewrite <- (take_drop_middle s i c) at 1.
  - apply lookup_lt_Some in Hl. rewrite length_take. lia.
Qed.

(** ** The matcher on [toast_pattern] *)

Section star.
Context {X : Type}.
Implicit Types k : text → nat → option X.

(** When the continuation cannot start with a character of the class,
    giving characters back never helps: only the longest run counts. *)
Lemma star_greedy_run cls s pos k :
  (∀ c s' p, cls c = true → k (c :: s') p = None) →
  star_greedy cls s pos k
  = k (drop (run_length cls s) s) (pos + run_length cls s)%nat.
Proof.
  intros Hk. revert pos. induction s as [|c s IH]; intros pos; simpl.
  - by rewrite Nat.add_0_r.
  - destruct (cls c) eqn:Hc; simpl.
    + rewrite IH, Nat.add_succ_r. simpl.
      destruct (k _ _); [done|]. by apply Hk.
    + by rewrite Nat.add_0_r.
Qed.

(** [[\s\S]*?] before a closing parenthesis stops at the first one. *)
Lemma star_lazy_find s pos (f : text → nat → X) :
  star_lazy any_char s pos
    (λ s' p, match lit [RPAREN] s' with
             | Some s'' => Some (f s'' p)
             | None => None
             end)
  = match find_char RPAREN s with
    | Some i => Some (f (drop (S i) s) (pos + i)%nat)
    | None => None
    end.
Proof.
  revert pos. induction s as [|c s IH]; intros pos; [done|].
  cbn [star_lazy lit find_char]. rewrite N.eqb_sym.
  destruct (c =? RPAREN).
  - by rewrite Nat.add_0_r.
  - rewrite any_char_true, IH. destruct (find_char RPAREN s); simpl; [|done].
    by rewrite Nat.add_succ_r.
Qed.
End star.

(** The tail [\s*\(([\s\S]*?)\)] of the pattern, when what follows it
    accepts. *)
Lemma rmatch_call_tail {X} s pos caps (f : nat → captures → X) :
  rmatch (RStar isspace >>> RLit [LPAREN] >>> RGroup 2 (RStarLazy any_char)
          >>> RLit [RPAREN]) s pos caps (λ _ e caps', Some (f e caps'))
  = match call_tail s with
    | Some (n, i) =>
        let a := (pos + n + 1)%nat in
        Some (f (a + i + 1)%nat (<[1%nat := Some (a, a + i)%nat]> caps))
    | None => None
    end.
Proof.
  cbn [rmatch]. rewrite star_greedy_run.
  - unfold call_tail.
    destruct (lit [LPAREN] (drop (run_length isspace s) s)) as [s'|]; [|done].
    simpl.
    rewrite (star_lazy_find s' _
      (λ _ p, f (p + 1)%nat (<[1%nat := Some (_, p)]> caps))).
    by destruct (find_char RPAREN s').
  - intros c s' p Hc. cbn [lit].
    destruct (N.eqb_spec LPAREN c) as [<-|]; [|done].
    by vm_compute in Hc.
Qed.

(** The member group followed by the tail: the first name in the
    pattern's order after which the tail matches. *)
Lemma rmatch_member {X} l ls s pos caps (f : nat → captures → X) :
  rmatch (RGroup 1 (alternatives l ls)) s pos caps
    (λ s' pos' caps',
       rmatch (RStar isspace >>> RLit [LPAREN]
               >>> RGroup 2 (RStarLazy any_char) >>> RLit [RPAREN])
         s' pos' caps' (λ _ e caps'', Some (f e caps'')))
  = match member_tail (l :: ls) s with
    | Some (v, (n, i)) =>
        let a := (pos + length v + n + 1)%nat in
        Some (f (a + i + 1)%nat
                (<[1%nat := Some (a, a + i)%nat]>
                   (<[0%nat := Some (pos, pos + length v)%nat]> caps)))
    | None => None
    end.
Proof.
  set (tail := RStar isspace >>> _).
  revert l. induction ls as [|l' ls IH]; intros l.
  - cbn [rmatch alternatives member_tail Nat.pred].
    destruct (lit l s) as [s'|]; [|done]. cbn [mbind option_bind].
    subst tail. rewrite (rmatch_call_tail s' _ _ f).
    by destruct (call_tail s') as [[n i]|].
  - specialize (IH l'). cbn [rmatch alternatives Nat.pred] in IH |- *.
    rewrite IH. cbn [member_tail].
    destruct (lit l s) as [s'|]; [|done]. cbn [mbind option_bind].
    subst tail. rewrite (rmatch_call_tail s' _ _ f).
    by destruct (call_tail s') as [[n i]|].
Qed.

(** What one attempt of [toast_pattern] at an offset computes. *)
Lemma toast_match_at content rest pos :
  match_at toast_pattern content rest pos false = toast_match content rest pos.
Proof.
  unfold match_at, toast_match, toast_pattern. cbn [p_regex p_groups andb].
  set (tail := RStar isspace >>> _).
  set (member := RGroup 1 _).
  cbn [rmatch].
  destruct (lit (str "toast") rest) as [s1|]; [|done].
  cbn [mbind option_bind].
  destruct (lit [DOT] s1) as [s2|]; cbn [mbind option_bind].
  - subst tail member.
    rewrite (rmatch_member _ _ s2 _ _
      (λ e caps, {| m_string := content; m_span := (pos, e); m_groups := caps |})).
    change (member_tail (str "success" :: variant_names) s2)
      with (member_tail all_names s2).
    destruct (member_tail all_names s2) as [[v [n i]]|]; [done|].
    rewrite (rmatch_call_tail s1 _ _
      (λ e caps, {| m_string := content; m_span := (pos, e); m_groups := caps |})).
    by destruct (call_tail s1) as [[n i]|].
  - subst tail.
    rewrite (rmatch_call_tail s1 _ _
      (λ e caps, {| m_string := content; m_span := (pos, e); m_groups := caps |})).
    by destruct (call_tail s1) as [[n i]|].
Qed.

Lemma toast_match_span content rest pos m :
  toast_match content rest pos = Some m →
  m_string m = content ∧ m_start m = pos ∧ (pos < m_end m)%nat.
Proof.
  unfold toast_match, m_start, m_end. intros H.
  destruct (lit (str "toast") rest) as [s1|]; [|done].
  cbn [mbind option_bind] in H.
  destruct (lit [DOT] s1 ≫= member_tail all_names) as [[v [n i]]|].
  - injection H as <-. simpl. split_and!; [done..|lia].
  - destruct (call_tail s1) as [[n i]|]; [|done].
    injection H as <-. simpl. split_and!; [done..|lia].
Qed.

(** A match of [toast_pattern] is never empty, so the iteration is: skip
    to where the previous match ended, try the pattern, go on. *)
Lemma finditer_from_toast content rest pos resume :
  finditer_from toast_pattern content rest pos resume
  = let continue resume' :=
      match rest with
      | [] => []
      | _ :: rest' => finditer_from toast_pattern content rest' (S pos) resume'
      end in
    if (pos <? resume)%nat then continue resume
    else match toast_match content rest pos with
         | None => continue resume
         | Some m => m :: continue (m_end m)
         end.
Proof.
  destruct rest as [|c rest]; cbn [finditer_from]; rewrite toast_match_at;
    (destruct (pos <? resume)%nat; [done|]);
    (destruct (toast_match content _ pos) as [m|] eqn:Hm; [|done]);
    apply toast_match_span in Hm as (_ & _ & Hlt);
    by destruct (Nat.eqb_spec (m_end m) pos); [lia|].
Qed.

Lemma toast_match_nil content pos : toast_match content [] pos = None.
Proof. done. Qed.

Section finditer.
Variable content : text.

Lemma drop_cons_inv (rest' : text) (c : N) pos :
  drop pos content = c :: rest' → drop (S pos) content = rest'.
Proof.
  intros H. by rewrite <- (Nat.add_1_r pos), <- drop_drop, H.
Qed.

(** Every match found is an attempt of the pattern that succeeded at its
    own start, no earlier than where the search began. *)
Lemma finditer_from_sound rest pos resume m :
  rest = drop pos content →
  m ∈ finditer_from toast_pattern content rest pos resume →
  (pos ≤ m_start m)%nat ∧ (resume ≤ m_start m)%nat
  ∧ toast_match content (drop (m_start m) content) (m_start m) = Some m.
Proof.
  revert pos resume. induction rest as [|c rest IH]; intros pos resume Hrest.
  - rewrite finditer_from_toast. cbn zeta. rewrite toast_match_nil.
    destruct (pos <? resume)%nat; by intros ?%elem_of_nil.
  - rewrite finditer_from_toast. cbn zeta.
    pose proof (drop_cons_inv rest c pos (eq_sym Hrest)) as Hrest'.
    destruct (Nat.ltb_spec pos resume) as [Hlt|Hge].
    + intros Hm. apply IH in Hm as (? & ? & ?); [|done].
      split_and!; [lia|done|done].
    + destruct (toast_match content (c :: rest) pos) as [m0|] eqn:Hm0.
      * pose proof (toast_match_span _ _ _ _ Hm0) as (_ & Hs & He).
        intros [->|Hm]%elem_of_cons.
        -- rewrite Hs, <- Hrest. split_and!; [lia|lia|done].
        -- apply IH in Hm as (? & ? & ?); [|done].
           split_and!; [lia|lia|done].
      * intros Hm. apply IH in Hm as (? & ? & ?); [|done].
        split_and!; [lia|lia|done].
Qed.

(** The matches come in increasing order and do not overlap. *)
Lemma finditer_from_sorted rest pos resume :
  rest = drop pos content →
  StronglySorted (λ m1 m2, (m_end m1 ≤ m_start m2)%nat)
    (finditer_from toast_pattern content rest pos resume).
Proof.
  revert pos resume. induction rest as [|c rest IH]; intros pos resume Hrest.
  - rewrite finditer_from_toast. cbn zeta. rewrite toast_match_nil.
    destruct (pos <? resume)%nat; constructor.
  - rewrite finditer_from_toast. cbn zeta.
    pose proof (drop_cons_inv rest c pos (eq_sym Hrest)) as Hrest'.
    destruct (pos <? resume)%nat; [by apply IH|].
    destruct (toast_match content (c :: rest) pos) as [m0|]; [|by apply IH].
    constructor; [by apply IH|].
    apply Forall_forall. intros m Hm.
    by apply finditer_from_sound in Hm as (_ & ? & _).
Qed.

(** An offset where the pattern matches and that no found match covers
    is itself the start of a found match. *)
Lemma finditer_from_complete rest pos resume p m :
  rest = drop pos content →
  (pos ≤ p)%nat → (resume ≤ p)%nat →
  toast_match content (drop p content) p = Some m →
  (∀ m', m' ∈ finditer_from toast_pattern content rest pos resume →
         ¬ (m_start m' < p < m_end m')%nat) →
  m ∈ finditer_from toast_pattern content rest pos resume.
Proof.
  revert pos resume.
  induction rest as [|c rest IH]; intros pos resume Hrest Hpos Hres Hm.
  - assert (drop p content = []) as Hnil.
    { apply drop_ge. symmetry in Hrest. apply drop_nil_inv in Hrest. lia. }
    by rewrite Hnil in Hm.
  - rewrite finditer_from_toast. cbn zeta.
    pose proof (drop_cons_inv rest c pos (eq_sym Hrest)) as Hrest'.
    destruct (Nat.ltb_spec pos resume) as [Hlt|Hge].
    + intros Hfree. apply IH; [done|lia|done|done|done].
    + destruct (decide (p = pos)) as [->|Hne].
      * rewrite <- Hrest in Hm. rewrite Hm. intros _. by left.
      * destruct (toast_match content (c :: rest) pos) as [m0|] eqn:Hm0.
        -- pose proof (toast_match_span _ _ _ _ Hm0) as (_ & Hs & He).
           intros Hfree. right. apply IH; [done|lia| |done|].
           ++ specialize (Hfree m0 (list_elem_of_here _ _)). lia.
           ++ intros m' Hm'. apply Hfree. by right.
        -- intros Hfree. apply IH; [done|lia|done|done|done].
Qed.
End finditer.

(** ** The shape of a match *)


Lemma call_tail_Some s n i :
  call_tail s = Some (n, i) ↔
  ∃ ws body tail,
    s = ws ++ LPAREN :: body ++ RPAREN :: tail
    ∧ all_space ws ∧ (RPAREN ∉ body) ∧ length ws = n ∧ length body = i.
Proof.
  unfold call_tail. split.
  - intros H.
    destruct (lit [LPAREN] _) as [s'|] eqn:Hlit; [|done].
    cbn [mbind option_bind] in H.
    destruct (find_char RPAREN s') as [j|] eqn:Hfind; [|done].
    cbn [mbind option_bind] in H. injection H as <- <-.
    apply lit_Some in Hlit. apply find_char_split in Hfind as (Hs' & Hn & Hlen).
    pose proof (run_length_spec isspace s) as [Hws _].
    exists (take (run_length isspace s) s), (take j s'), (drop (S j) s').
    split_and!; [|done|done| |done].
    + rewrite <- Hs'. simpl in Hlit. rewrite <- Hlit. by rewrite take_drop.
    + rewrite length_take. apply Nat.min_l.
      apply Nat.lt_le_incl, Nat.nle_gt. intros Hge.
      by rewrite drop_ge in Hlit.
  - intros (ws & body & tail & -> & Hws & Hbody & <- & <-).
    rewrite run_length_app; [|done|by intros ? [= <-]].
    rewrite drop_app_length. cbn [lit].
    rewrite N.eqb_refl. cbn [mbind option_bind].
    by rewrite find_char_app.
Qed.

Lemma member_tail_Some names s v n i :
  member_tail names s = Some (v, (n, i)) →
  v ∈ names ∧ ∃ s', s = v ++ s' ∧ call_tail s' = Some (n, i).
Proof.
  induction names as [|v' names IH]; [done|]. cbn [member_tail].
  destruct (lit v' s ≫= call_tail) as [ni|] eqn:E.
  - intros [= -> ->]. split; [by left|].
    destruct (lit v s) as [s'|] eqn:Hlit; [|done].
    apply lit_Some in Hlit. by exists s'.
  - intros [? ?]%IH. split; [by right | done].
Qed.

Lemma all_names_eq :
  all_names = List.map str
    ["success"; "error"; "info"; "warning"; "loading"; "custom"; "message"]%string.
Proof. reflexivity. Qed.

Lemma all_names_letters v c : v ∈ all_names → c ∈ v → (97 ≤ c ≤ 122)%N.
Proof.
  rewrite all_names_eq. cbn.
  intros Hv. repeat (apply elem_of_cons in Hv as [->|Hv]);
    [..|by apply elem_of_nil in Hv];
    intros Hc; repeat (apply elem_of_cons in Hc as [->|Hc]);
    first [lia | by apply elem_of_nil in Hc].
Qed.

Lemma all_names_nonempty v : v ∈ all_names → v ≠ [].
Proof.
  rewrite all_names_eq. cbn.
  intros Hv. repeat (apply elem_of_cons in Hv as [->|Hv]);
    [..|by apply elem_of_nil in Hv]; done.
Qed.

(** No member name is the start of another: once a name is read, the
    choice among the alternatives is made. *)
Lemma member_tail_app v s :
  v ∈ all_names →
  member_tail all_names (v ++ s) = (λ ni, (v, ni)) <$> call_tail s.
Proof.
  rewrite all_names_eq. cbn [List.map].
  intros Hv. repeat (apply elem_of_cons in Hv as [->|Hv]);
    [..|by apply elem_of_nil in Hv];
    vm_compute str; cbn [member_tail lit app N.eqb Pos.eqb mbind option_bind];
    by destruct (call_tail s).
Qed.

Lemma toast_match_shape content rest pos m :
  toast_match content rest pos = Some m →
  ∃ member ws body tail,
    rest = call_text member ws body ++ tail
    ∧ (∀ v, member = Some v → v ∈ all_names)
    ∧ all_space ws ∧ (RPAREN ∉ body)
    ∧ m = toast_match_of content pos member (length ws) (length body).
Proof.
  unfold toast_match, call_text. intros H.
  destruct (lit (str "toast") rest) as [s1|] eqn:Hlit; [|done].
  apply lit_Some in Hlit as ->. cbn [mbind option_bind] in H.
  destruct (lit [DOT] s1 ≫= member_tail all_names) as [[v [n i]]|] eqn:Hmem.
  - injection H as <-.
    destruct (lit [DOT] s1) as [s2|] eqn:Hdot; [|done].
    apply lit_Some in Hdot as ->. cbn [mbind option_bind] in Hmem.
    apply member_tail_Some in Hmem as (Hv & s' & -> & Htail).
    apply call_tail_Some in Htail as (ws & body & tail & -> & ? & ? & <- & <-).
    exists (Some v), ws, body, tail. split_and!; [|by intros ? [= <-]|done..].
    by norm_app.
  - destruct (call_tail s1) as [[n i]|] eqn:Htail; [|done].
    cbn [mbind option_bind] in H. injection H as <-.
    apply call_tail_Some in Htail as (ws & body & tail & -> & ? & ? & <- & <-).
    exists None, ws, body, tail. split_and!; [|done..].
    by norm_app.
Qed.

Lemma call_tail_not_space c s :
  isspace c = false → c ≠ LPAREN → call_tail (c :: s) = None.
Proof.
  intros Hc Hne. destruct (call_tail (c :: s)) as [[n i]|] eqn:E; [|done].
  apply call_tail_Some in E as (ws & body & tail & Heq & Hws & _).
  destruct ws as [|c' ws]; simplify_eq/=.
  apply Forall_cons in Hws as [? _]. congruence.
Qed.

(** A call written out in full is matched where it starts. *)
Lemma toast_match_call content member ws body tail pos :
  (∀ v, member = Some v → v ∈ all_names) →
  all_space ws → RPAREN ∉ body →
  toast_match content (call_text member ws body ++ tail) pos
  = Some (toast_match_of content pos member (length ws) (length body)).
Proof.
  intros Hmem Hws Hbody. unfold toast_match, call_text. norm_app.
  rewrite lit_app. cbn [mbind option_bind].
  assert (call_tail (ws ++ LPAREN :: body ++ RPAREN :: tail)
          = Some (length ws, length body)) as Htail.
  { apply call_tail_Some. by exists ws, body, tail. }
  destruct member as [v|]; cbn [from_option app].
  - cbn [lit]. rewrite N.eqb_refl. cbn [mbind option_bind].
    rewrite member_tail_app by auto. by rewrite Htail.
  - rewrite Htail. cbn [mbind option_bind].
    destruct ws as [|c ws]; cbn [app lit].
    + done.
    + apply Forall_cons in Hws as [Hc _].
      destruct (N.eqb_spec DOT c) as [<-|]; [|done]. by vm_compute in Hc.
Qed.

(** After the dot, a name that is not one of the seven and is written
    without whitespace or parenthesis is not matched. *)
Lemma toast_match_unknown content name ws tail pos :
  name ∉ all_names →
  (∀ c, c ∈ name → isspace c = false ∧ c ≠ LPAREN) →
  all_space ws →
  toast_match content (str "toast" ++ DOT :: name ++ ws ++ LPAREN :: tail) pos
  = None.
Proof.
  intros Hname Hchars Hws. unfold toast_match.
  rewrite lit_app. cbn [mbind option_bind lit]. rewrite N.eqb_refl.
  cbn [mbind option_bind].
  destruct (member_tail all_names _) as [[v [n i]]|] eqn:E.
  - exfalso. apply member_tail_Some in E as (Hv & s' & Heq & Htail).
    apply app_eq_inv in Heq as [(k & -> & ->)|(k & -> & Hk)].
    + destruct k as [|c k].
      * by rewrite app_nil_r in Hname.
      * destruct (Hchars c) as [Hc Hne].
        { apply elem_of_app. right. by left. }
        cbn [app] in Htail. by rewrite call_tail_not_space in Htail.
    + destruct k as [|c k].
      * by rewrite app_nil_r in Hv.
      * assert (97 ≤ c ≤ 122)%N as Hrange.
        { apply (all_names_letters _ _ Hv). apply elem_of_app. right. by left. }
        destruct ws as [|c' ws]; injection Hk as <- _.
        -- unfold LPAREN in Hrange. lia.
        -- apply Forall_cons in Hws as [Hc _].
           unfold isspace in Hc. rewrite !orb_true_iff, !andb_true_iff in Hc.
           rewrite !N.leb_le, !N.eqb_eq in Hc. lia.
  - by rewrite call_tail_not_space.
Qed.

(** ** Slices *)

Lemma slice_to_nat (s : text) k : slice_to s (Z.of_nat k) = take k s.
Proof.
  unfold slice_to, slice, adjust_index.
  destruct (Z.ltb_spec 0 0); [lia|].
  destruct (Z.ltb_spec (Z.of_nat k) 0); [lia|].
  rewrite (Z.min_l 0) by lia. change (Z.to_nat 0) with 0%nat.
  rewrite drop_0, Z.sub_0_r.
  destruct (Nat.le_gt_cases k (length s)).
  - rewrite Z.min_l by lia. by rewrite Nat2Z.id.
  - rewrite Z.min_r by lia. rewrite Nat2Z.id. by rewrite !take_ge by lia.
Qed.

Lemma slice_from_nat (s : text) k : slice_from s (Z.of_nat k) = drop k s.
Proof.
  unfold slice_from, slice, adjust_index.
  destruct (Z.ltb_spec (Z.of_nat k) 0); [lia|].
  destruct (Z.ltb_spec (Z.of_nat (length s)) 0); [lia|].
  rewrite (Z.min_l (Z.of_nat (length s))) by lia.
  destruct (Nat.le_gt_cases k (length s)).
  - rewrite Z.min_l by lia. rewrite Nat2Z.id. apply take_ge.
    rewrite length_drop. lia.
  - rewrite Z.min_r by lia. rewrite Nat2Z.id. rewrite !drop_ge by lia.
    by rewrite take_nil.
Qed.

Lemma count_to_nat (s : text) c k :
  count s c 0 (Z.of_nat k) = Z.of_nat (length (filter (λ x, x = c) (take k s))).
Proof. unfold count. fold (slice_to s (Z.of_nat k)). by rewrite slice_to_nat. Qed.

(** ** The entry of a match *)

Lemma process_match_toast filepath content pos member ws body tail :
  drop pos content = call_text member ws body ++ tail →
  (∀ v, member = Some v → v ∈ all_names) →
  let m := toast_match_of content pos member (length ws) (length body) in
  process_match filepath content m
  = Ok {| file := filepath;
          line := Z.of_nat (length (filter (λ x, x = NL) (take pos content))) + 1;
          type := default (str "default") member;
          args := clean_up (args_loop (drop (params_start m) content) 0 []) |}.
Proof.
  intros Hdrop Hmem m. unfold process_match.
  assert (start m 0 = Ok (Z.of_nat pos)) as -> by done.
  assert (group m 1 = Ok member) as ->.
  { destruct member as [v|]; [|done].
    unfold group, m. cbn -[take drop Nat.add Nat.sub]. do 2 f_equal.
    replace (pos + 5 + 1)%nat with (pos + 6)%nat by lia.
    rewrite <- drop_drop, Hdrop.
    replace (pos + 6 + length v - (pos + 6))%nat with (length v) by lia.
    unfold call_text. norm_app. change (str "toast") with [116; 111; 97; 115; 116].
    cbn [drop app]. by rewrite drop_0, take_app_length. }
  destruct (group m 2) as [a|e] eqn:Hg2; [|done].
  assert (∃ b, a = Some b) as [b ->].
  { unfold group, m in Hg2. cbn -[take drop Nat.add Nat.sub] in Hg2.
    injection Hg2 as <-. by eexists. }
  cbn [mbind result_bind findall].
  assert (start m 2 = Ok (Z.of_nat (params_start m))) as -> by done.
  cbn [mbind result_bind mret result_ret].
  rewrite slice_from_nat, count_to_nat. do 2 f_equal.
  destruct member as [[|c v]|]; [|done..].
  by destruct (all_names_nonempty [] (Hmem _ eq_refl)).
Qed.

(** ** The counter loop *)

Section args_loop.
Local Open Scope Z_scope.

Lemma args_loop_step c chars balance full_args :
  args_loop (c :: chars) balance full_args
  = if step_depth balance c <? 0 then full_args
    else args_loop chars (step_depth balance c) (full_args ++ [c]).
Proof. done. Qed.

Lemma step_depth_neg balance c :
  0 ≤ balance → step_depth balance c < 0 ↔ c = RPAREN ∧ balance = 0.
Proof.
  intros Hb. unfold step_depth.
  destruct (N.eqb_spec c LPAREN) as [->|?].
  - split; [lia | by intros [[=] _]].
  - destruct (N.eqb_spec c RPAREN) as [->|?]; [|split; [lia | by intros [? _]]].
    split; [intros ?; split; [done | lia] | lia].
Qed.

(** From any non-negative depth: the loop stops at the first closing
    parenthesis read at depth 0 and has kept what came before it. *)
Lemma args_loop_stop chars balance full_args k :
  0 ≤ balance →
  chars !! k = Some RPAREN →
  foldl step_depth balance (take k chars) = 0 →
  (∀ j, (j < k)%nat →
        ¬ (chars !! j = Some RPAREN
           ∧ foldl step_depth balance (take j chars) = 0)) →
  args_loop chars balance full_args = full_args ++ take k chars.
Proof.
  revert balance full_args k.
  induction chars as [|c chars IH]; intros balance full_args k Hb Hk Hd Hmin;
    [done|].
  rewrite args_loop_step. destruct k as [|k].
  - injection Hk as ->. cbn in Hd. subst balance.
    by rewrite app_nil_r.
  - destruct (Z.ltb_spec (step_depth balance c) 0) as [Hneg|Hpos].
    + apply step_depth_neg in Hneg as [-> ->]; [|done].
      destruct (Hmin 0%nat); [lia | done].
    + rewrite (IH _ _ k); [by rewrite <- app_assoc|done|done|done|].
      intros j Hj. apply (Hmin (S j)). lia.
Qed.

(** Without such a parenthesis the loop reads everything. *)
Lemma args_loop_all chars balance full_args :
  0 ≤ balance →
  (∀ j, ¬ (chars !! j = Some RPAREN
           ∧ foldl step_depth balance (take j chars) = 0)) →
  args_loop chars balance full_args = full_args ++ chars.
Proof.
  revert balance full_args.
  induction chars as [|c chars IH]; intros balance full_args Hb Hnone.
  - by rewrite app_nil_r.
  - rewrite args_loop_step.
    destruct (Z.ltb_spec (step_depth balance c) 0) as [Hneg|Hpos].
    + apply step_depth_neg in Hneg as [-> ->]; [|done].
      destruct (Hnone 0%nat). done.
    + rewrite IH; [by rewrite <- app_assoc|done|].
      intros j. apply (Hnone (S j)).
Qed.

Lemma args_loop_first_closer chars k :
  first_closer chars k → args_loop chars 0 [] = take k chars.
Proof.
  intros [[Hk Hd] Hmin]. by apply (args_loop_stop chars 0 [] k).
Qed.

Lemma args_loop_no_closer chars :
  (∀ k, ¬ closer chars k) → args_loop chars 0 [] = chars.
Proof. intros Hnone. by apply (args_loop_all chars 0 []). Qed.

End args_loop.

(** ** Whitespace clean-up *)

Lemma split_from_words s w :
  no_space w → Forall word (split_from s w).
Proof.
  revert w. induction s as [|c s IH]; intros w Hw; cbn [split_from].
  - destruct w; [constructor|]. by repeat first [done | constructor].
  - destruct (isspace c) eqn:Hc.
    + destruct w; [by apply IH|]. constructor; [done|]. by apply IH.
    + apply IH. apply Forall_app. split; [done|]. by constructor.
Qed.

Lemma split_words s : Forall word (split s).
Proof. by apply split_from_words. Qed.

Lemma split_from_word_app w s acc :
  no_space w → split_from (w ++ s) acc = split_from s (acc ++ w).
Proof.
  intros Hw. revert acc. induction Hw as [|c w Hc _ IH]; intros acc.
  - by rewrite app_nil_r.
  - cbn [app split_from]. rewrite Hc, IH. by rewrite <- app_assoc.
Qed.

(** Splitting what was joined with single spaces gives the words back. *)
Lemma split_join ws : Forall word ws → split (join [SPACE] ws) = ws.
Proof.
  unfold split. induction 1 as [|w ws [Hne Hw] Hws IH]; [done|].
  cbn [join]. destruct ws as [|w' ws].
  - rewrite <- (app_nil_r w) at 1. rewrite split_from_word_app by done.
    cbn. by destruct w.
  - rewrite split_from_word_app by done. cbn [app split_from].
    change (isspace SPACE) with true. cbn [app]. rewrite IH.
    by destruct w.
Qed.

Lemma normalize_idempotent s : normalize (normalize s) = normalize s.
Proof. unfold normalize. by rewrite split_join by apply split_words. Qed.

Lemma elem_of_join c sep ws :
  c ∈ join sep ws → c ∈ sep ∨ ∃ w, w ∈ ws ∧ c ∈ w.
Proof.
  induction ws as [|w ws IH]; cbn [join]; [by intros ?%elem_of_nil|].
  destruct ws as [|w' ws].
  - intros ?. right. exists w. split; [by left | done].
  - rewrite !elem_of_app. intros [?|[?|Hc]].
    + right. exists w. split; [by left | done].
    + by left.
    + apply IH in Hc as [?|(w0 & ? & ?)]; [by left|].
      right. exists w0. split; [by right | done].
Qed.

(** The only whitespace left after the clean-up is the single space. *)
Lemma join_words_space ws c :
  Forall word ws → c ∈ join [SPACE] ws → isspace c = true → c = SPACE.
Proof.
  intros Hws [Hc|(w & Hw & Hc)]%elem_of_join Hsp.
  - by apply list_elem_of_singleton in Hc.
  - rewrite Forall_forall in Hws. destruct (Hws w Hw) as [_ Hns].
    rewrite Forall_forall in Hns. specialize (Hns c Hc). congruence.
Qed.

Lemma nds_no_space_run t : nds t → no_space_run t.
Proof.
  intros Hnds i. revert t Hnds.
  induction i as [|i IH]; intros [|a [|b t]] Hnds [H1 H2]; try done.
  - destruct Hnds as [Hab _]. apply Hab. by simplify_eq/=.
  - destruct Hnds as [_ Hnds]. by apply (IH (b :: t)).
Qed.

Lemma nds_app p t :
  nds p → nds t → (∀ c, head t = Some c → c ≠ SPACE) → nds (p ++ t).
Proof.
  intros Hp Ht Hhd. induction p as [|a p IH]; [done|].
  destruct p as [|b p]; cbn [app].
  - destruct t as [|c t]; [done|]. cbn. split; [|done].
    intros [_ ->]. by apply (Hhd SPACE).
  - destruct Hp as [Hab Hp]. split; [done|]. by apply IH.
Qed.

Lemma nds_word_app w t : no_space w → nds t → nds (w ++ t).
Proof.
  intros Hw Ht. induction Hw as [|c w Hc _ IH]; [done|].
  cbn [app]. destruct (w ++ t) as [|b t'] eqn:E; [done|].
  split; [|done]. intros [-> _]. by vm_compute in Hc.
Qed.

Lemma nds_word w : no_space w → nds w.
Proof. intros Hw. rewrite <- (app_nil_r w). by apply nds_word_app. Qed.

Lemma nds_take n t : nds t → nds (take n t).
Proof.
  revert t. induction n as [|n IH]; intros [|a [|b t]] Hnds; try done.
  - by destruct n.
  - destruct Hnds as [Hab Hnds]. specialize (IH (b :: t) Hnds).
    destruct n; [done|]. by split.
Qed.

Lemma nds_join ws : Forall word ws → nds (join [SPACE] ws).
Proof.
  induction 1 as [|w ws [Hne Hw] Hws IH]; [done|].
  cbn [join]. destruct ws as [|w' ws]; [by apply nds_word|].
  apply nds_word_app; [done|]. cbn [app].
  apply Forall_cons in Hws as [[Hne' Hw'] _].
  cbn [join] in *. 
  assert (∃ c t, (match ws with [] => w' | _ :: _ => w' ++ [SPACE] ++ join [SPACE] ws end) = c :: t
                 ∧ isspace c = false) as (c & t & Heq & Hc).
  { destruct w' as [|c w']; [done|]. apply Forall_cons in Hw' as [Hc _].
    destruct ws; by eexists _, _. }
  rewrite Heq in IH |- *. split; [|done].
  intros [_ ->]. by vm_compute in Hc.
Qed.

Lemma head_word_app w t c :
  word w → head (w ++ t) = Some c → isspace c = false.
Proof.
  intros [Hne Hw]. destruct w as [|a w]; [done|].
  apply Forall_cons in Hw as [Ha _]. by intros [= <-].
Qed.

Lemma head_join ws c :
  Forall word ws → head (join [SPACE] ws) = Some c → isspace c = false.
Proof.
  destruct 1 as [|w ws Hw Hws]; [done|]. cbn [join].
  destruct ws.
  - rewrite <- (app_nil_r w). by apply head_word_app.
  - by apply head_word_app.
Qed.

Lemma last_join ws c :
  Forall word ws → last (join [SPACE] ws) = Some c → isspace c = false.
Proof.
  induction 1 as [|w ws [Hne Hw] Hws IH]; [done|]. cbn [join].
  destruct ws as [|w' ws].
  - intros Hl. rewrite Forall_forall in Hw. apply Hw.
    apply last_Some in Hl as [l' ->]. apply elem_of_app. right. by left.
  - apply Forall_cons in Hws as [[Hne' _] _].
    rewrite !last_app. cbn [join] in *.
    destruct (last _) as [c'|] eqn:El; [done|].
    apply last_None in El. destruct ws; [done|].
    by destruct w'.
Qed.

Lemma clean_up_cases s :
  (length (normalize s) ≤ 100 ∧ clean_up s = normalize s)%nat
  ∨ (100 < length (normalize s)
     ∧ clean_up s = take 100 (normalize s) ++ str "...")%nat.
Proof.
  unfold clean_up. fold (normalize s).
  destruct (Z.ltb_spec 100 (Z.of_nat (length (normalize s)))).
  - right. split; [lia|]. by rewrite (slice_to_nat _ 100).
  - left. split; [lia | done].
Qed.

Lemma clean_up_length s : (length (clean_up s) ≤ 103)%nat.
Proof.
  destruct (clean_up_cases s) as [[? ->]|[? ->]]; [lia|].
  rewrite length_app, length_take. change (length (str "...")) with 3%nat. lia.
Qed.

Lemma normalize_word w : word w → normalize w = w.
Proof.
  intros [Hne Hw]. unfold normalize, split.
  rewrite <- (app_nil_r w) at 1. rewrite split_from_word_app by done.
  cbn. by destruct w.
Qed.

Lemma clean_up_space s c : c ∈ clean_up s → isspace c = true → c = SPACE.
Proof.
  destruct (clean_up_cases s) as [[_ ->]|[_ ->]].
  - apply join_words_space, split_words.
  - intros [Hc%subseteq_take | Hc]%elem_of_app.
    + revert Hc. apply join_words_space, split_words.
    + cbn in Hc. repeat (apply elem_of_cons in Hc as [->|Hc]); [done..|].
      by apply elem_of_nil in Hc.
Qed.

Lemma clean_up_no_newline s : NL ∉ clean_up s.
Proof. intros H. by apply clean_up_space in H. Qed.

Lemma clean_up_no_space_run s : no_space_run (clean_up s).
Proof.
  apply nds_no_space_run.
  destruct (clean_up_cases s) as [[_ ->]|[_ ->]].
  - apply nds_join, split_words.
  - apply nds_app; [apply nds_take, nds_join, split_words | |].
    + apply nds_word. by repeat constructor.
    + by intros c [= <-].
Qed.

Lemma clean_up_stripped s : stripped (clean_up s).
Proof.
  destruct (clean_up_cases s) as [[_ ->]|[Hlen ->]].
  - split; intros c; [apply head_join | apply last_join]; apply split_words.
  - split; intros c.
    + destruct (normalize s) as [|a t] eqn:E; [cbn in Hlen; lia|].
      cbn. intros [= <-]. apply (head_join (split s)); [apply split_words|].
      fold (normalize s). by rewrite E.
    + rewrite last_app. by intros [= <-].
Qed.

(** ** Candidates and their entries *)

Lemma call_text_open member ws body :
  call_text member ws body = call_open member ws ++ body ++ [RPAREN].
Proof. unfold call_text, call_open. by norm_app. Qed.

(** A call whose opening parenthesis is never followed by a closing one
    is not matched. *)
Lemma toast_match_open_none content member ws tail pos :
  (∀ v, member = Some v → v ∈ all_names) →
  all_space ws → RPAREN ∉ tail →
  toast_match content (call_open member ws ++ tail) pos = None.
Proof.
  intros Hmem Hws Htail.
  destruct (toast_match _ _ _) as [m|] eqn:E; [exfalso|done].
  apply toast_match_shape in E
    as (member' & ws' & body & tail' & Heq & Hmem' & Hws' & Hbody & _).
  assert (∀ ws1 ws2 t1 t2, all_space ws1 → all_space ws2 →
            ws1 ++ LPAREN :: t1 = ws2 ++ LPAREN :: t2 → t1 = t2) as Hws_inj.
  { clear. intros ws1. induction ws1 as [|c ws1 IH]; intros [|c' ws2] t1 t2 H1 H2 Heq;
      simplify_eq/=; [done| | |].
    - apply Forall_cons in H2 as [H2 _]. by vm_compute in H2.
    - apply Forall_cons in H1 as [H1 _]. by vm_compute in H1.
    - apply Forall_cons in H1 as [_ H1]. apply Forall_cons in H2 as [_ H2]. eauto. }
  unfold call_text, call_open in Heq. revert Heq. norm_app.
  intros Heq%app_inv_head.
  assert (tail = body ++ RPAREN :: tail') as ->; [|].
  2:{ apply Htail, elem_of_app. right. by left. }
  destruct member as [v|], member' as [v'|]; cbn [from_option app] in Heq.
  - injection Heq as Heq.
    pose proof (Hmem _ eq_refl) as Hv. pose proof (Hmem' _ eq_refl) as Hv'.
    assert (v = v') as <-.
    { pose proof (member_tail_app v (ws ++ LPAREN :: tail) Hv) as H1.
      rewrite Heq in H1. rewrite (member_tail_app v') in H1 by done.
      assert (call_tail (ws' ++ LPAREN :: body ++ RPAREN :: tail')
              = Some (length ws', length body)) as Hct.
      { apply call_tail_Some. by exists ws', body, tail'. }
      rewrite Hct in H1.
      destruct (call_tail (ws ++ LPAREN :: tail)); by simplify_eq/=. }
    apply app_inv_head in Heq. by apply (Hws_inj ws ws').
  - exfalso. destruct ws' as [|c ws']; simplify_eq/=.
    apply Forall_cons in Hws' as [H _]. by vm_compute in H.
  - exfalso. destruct ws as [|c ws]; simplify_eq/=.
    apply Forall_cons in Hws as [H _]. by vm_compute in H.
  - by apply (Hws_inj ws ws').
Qed.

Lemma elem_of_find_char c s : c ∈ s → ∃ i, find_char c s = Some i.
Proof.
  intros H. destruct (find_char c s) as [i|] eqn:E; [by exists i|].
  by apply find_char_None in E.
Qed.

Lemma finditer_candidate content m :
  m ∈ finditer toast_pattern content →
  ∃ member ws body tail,
    drop (m_start m) content = call_text member ws body ++ tail
    ∧ (∀ v, member = Some v → v ∈ all_names)
    ∧ all_space ws ∧ (RPAREN ∉ body)
    ∧ m = toast_match_of content (m_start m) member (length ws) (length body).
Proof.
  intros Hm. apply (finditer_from_sound content) in Hm as (_ & _ & Hm); [|done].
  by apply toast_match_shape in Hm.
Qed.

Lemma process_match_candidate filepath content m :
  m ∈ finditer toast_pattern content →
  ∃ u, process_match filepath content m = Ok u.
Proof.
  intros (member & ws & body & tail & Hdrop & Hmem & _ & _ & Hm)%finditer_candidate.
  rewrite Hm. rewrite (process_match_toast _ _ _ _ _ _ _ Hdrop Hmem).
  by eexists.
Qed.

Lemma scan_matches_ok filepath content matches usage_list :
  (∀ m, m ∈ matches → ∃ u, process_match filepath content m = Ok u) →
  ∃ us, scan_matches filepath content matches usage_list = (usage_list ++ us, None)
        ∧ Forall2 (λ m u, process_match filepath content m = Ok u) matches us.
Proof.
  revert usage_list.
  induction matches as [|m matches IH]; intros usage_list Hok.
  - exists []. by rewrite app_nil_r.
  - destruct (Hok m) as [u Hu]; [by left|]. cbn [scan_matches]. rewrite Hu.
    destruct (IH (usage_list ++ [u])) as (us & -> & HF).
    { intros m' Hm'. apply Hok. by right. }
    exists (u :: us). split; [by rewrite <- app_assoc | by constructor].
Qed.

(** The [try] block never reaches its handler, and appends the entry of
    each match, in order. *)
Lemma scan_content_entries filepath content usage_list :
  ∃ us, scan_content filepath content usage_list = (usage_list ++ us, None)
        ∧ Forall2 (λ m u, process_match filepath content m = Ok u)
            (finditer toast_pattern content) us.
Proof. apply scan_matches_ok, process_match_candidate. Qed.

Lemma usages_of_entries filepath content :
  Forall2 (λ m u, process_match filepath content m = Ok u)
    (finditer toast_pattern content) (usages_of filepath content).
Proof.
  unfold usages_of.
  by destruct (scan_content_entries filepath content []) as (us & -> & ?).
Qed.

(** To prove a property of every entry, prove it of the entry of every
    match. *)
Lemma usages_of_Forall2 filepath content (P : Match → usage → Prop) :
  (∀ m u, m ∈ finditer toast_pattern content →
          process_match filepath content m = Ok u → P m u) →
  Forall2 P (finditer toast_pattern content) (usages_of filepath content).
Proof.
  intros HP. pose proof (usages_of_entries filepath content) as HF.
  set (ms := finditer toast_pattern content) in *.
  set (us := usages_of filepath content) in *. clearbody ms us.
  induction HF as [|m u ms us Hmu HF IH]; [constructor|].
  constructor; [apply HP; [by left | done]|].
  apply IH. intros m' u' Hm'. apply HP. by right.
Qed.

Lemma usages_of_Forall filepath content (P : usage → Prop) :
  (∀ m u, m ∈ finditer toast_pattern content →
          process_match filepath content m = Ok u → P u) →
  Forall P (usages_of filepath content).
Proof.
  intros HP. apply (usages_of_Forall2 filepath content (λ _ u, P u)) in HP.
  by apply Forall2_Forall_r with (Q := P) in HP; [|apply Forall_true].
Qed.

Lemma usages_of_elem filepath content m u :
  m ∈ finditer toast_pattern content →
  process_match filepath content m = Ok u →
  u ∈ usages_of filepath content.
Proof.
  intros [i Hi]%list_elem_of_lookup Hu.
  pose proof (usages_of_entries filepath content) as HF.
  destruct (Forall2_lookup_l _ _ _ _ _ HF Hi) as (u' & Hu' & Heq).
  rewrite Hu in Heq. injection Heq as <-.
  apply list_elem_of_lookup. by exists i.
Qed.

(** Where a match lies in the text: the identifier at its start, the
    opening parenthesis just before the arguments, and its end just after
    the first closing parenthesis that follows. *)
Lemma candidate_offsets content m :
  m ∈ finditer toast_pattern content →
  take 5 (drop (m_start m) content) = str "toast"
  ∧ start m 2 = Ok (Z.of_nat (params_start m))
  ∧ (m_start m + 5 < params_start m)%nat
  ∧ content !! (params_start m - 1)%nat = Some LPAREN
  ∧ (params_start m < m_end m)%nat
  ∧ content !! (m_end m - 1)%nat = Some RPAREN
  ∧ (RPAREN ∉ take (m_end m - 1 - params_start m) (drop (params_start m) content))
  ∧ (m_end m ≤ length content)%nat.
Proof.
  intros (member & ws & body & tail & Hdrop & Hmem & _ & Hbody & Hm)%finditer_candidate.
  set (p := m_start m) in *. clearbody p. subst m.
  set (pre := str "toast" ++ from_option (λ v, DOT :: v) [] member ++ ws).
  assert (drop p content = pre ++ LPAREN :: body ++ RPAREN :: tail) as Hdrop'.
  { rewrite Hdrop. unfold call_text, pre. by norm_app. }
  assert (params_start (toast_match_of content p member (length ws) (length body))
          = (p + length pre + 1)%nat) as Hps.
  { unfold pre. rewrite !length_app. change (length (str "toast")) with 5%nat.
    destruct member; cbn; lia. }
  assert (m_end (toast_match_of content p member (length ws) (length body))
          = (p + length pre + 1 + length body + 1)%nat) as Hend.
  { unfold pre. rewrite !length_app. change (length (str "toast")) with 5%nat.
    destruct member; cbn; lia. }
  assert (5 ≤ length pre)%nat as Hpre.
  { unfold pre. rewrite length_app. change (length (str "toast")) with 5%nat. lia. }
  rewrite Hps, Hend. split_and!.
  - rewrite Hdrop'. unfold pre. by rewrite <- app_assoc.
  - rewrite <- Hps. by destruct member.
  - lia.
  - replace (p + length pre + 1 - 1)%nat with (p + length pre)%nat by lia.
    rewrite <- lookup_drop, Hdrop'. by apply list_lookup_middle.
  - lia.
  - replace (p + length pre + 1 + length body + 1 - 1)%nat
      with (p + (length pre + 1 + length body))%nat by lia.
    rewrite <- lookup_drop, Hdrop'.
    replace (pre ++ LPAREN :: body ++ RPAREN :: tail)
      with ((pre ++ LPAREN :: body) ++ RPAREN :: tail) by by norm_app.
    apply list_lookup_middle. rewrite length_app. cbn. lia.
  - replace (p + length pre + 1)%nat with (p + (length pre + 1))%nat by lia.
    rewrite <- drop_drop, Hdrop'.
    replace (pre ++ LPAREN :: body ++ RPAREN :: tail)
      with ((pre ++ [LPAREN]) ++ body ++ RPAREN :: tail) by by norm_app.
    rewrite drop_app_length' by (rewrite length_app; cbn; lia).
    replace (p + (length pre + 1) + length body + 1 - 1 - (p + (length pre + 1)))%nat
      with (length body) by lia.
    by rewrite take_app_length.
  - assert (length (drop p content)
            = (length pre + 1 + length body + 1 + length tail)%nat) as Hlen.
    { rewrite Hdrop'. rewrite !length_app. cbn. rewrite !length_app. cbn. lia. }
    rewrite length_drop in Hlen. lia.
Qed.

(** The entry a match produces, field by field. *)
Lemma candidate_entry filepath content m :
  m ∈ finditer toast_pattern content →
  ∃ member,
    (∀ v, member = Some v → v ∈ all_names)
    ∧ take (5 + from_option (λ v, S (length v)) 0%nat member)
        (drop (m_start m) content)
      = str "toast" ++ from_option (λ v, DOT :: v) [] member
    ∧ process_match filepath content m
      = Ok {| file := filepath;
              line := Z.of_nat (newline_count (take (m_start m) content)) + 1;
              type := default (str "default") member;
              args := clean_up (args_loop (drop (params_start m) content) 0 []) |}.
Proof.
  intros (member & ws & body & tail & Hdrop & Hmem & _ & _ & Hm)%finditer_candidate.
  exists member. split_and!; [done| |].
  { rewrite Hdrop. unfold call_text. rewrite app_assoc, <- app_assoc.
    apply take_app_length'. rewrite length_app.
    change (length (str "toast")) with 5%nat. by destruct member. }
  rewrite Hm at 1. rewrite (process_match_toast _ _ _ _ _ _ _ Hdrop Hmem).
  by rewrite <- Hm.
Qed.

(** * The claims *)

(** C1. For every text and every candidate the pattern detects, the
    arguments start just after the opening parenthesis, and the raw
    argument text the counter loop extracts from there is exactly the text
    up to, and without, the first closing parenthesis read at depth 0
    (so balanced nested parentheses are kept whole); when there is no such
    parenthesis it is the whole rest of the text. The entry reports that
    text, cleaned up. *)
Theorem args_are_text_up_to_first_closer filepath content m :
  m ∈ finditer toast_pattern content →
  ∃ idx : nat,
    start m 2 = Ok (Z.of_nat idx)
    ∧ (0 < idx)%nat
    ∧ content !! (idx - 1)%nat = Some LPAREN
    ∧ slice_from content (Z.of_nat idx) = drop idx content
    ∧ (∀ k, first_closer (drop idx content) k →
            args_loop (drop idx content) 0 [] = take k (drop idx content))
    ∧ ((∀ k, ¬ closer (drop idx content) k) →
       args_loop (drop idx content) 0 [] = drop idx content)
    ∧ ∃ u, process_match filepath content m = Ok u
           ∧ args u = clean_up (args_loop (drop idx content) 0 []).
Proof.
  intros Hm. exists (params_start m).
  destruct (candidate_offsets content m Hm) as (_ & Hstart & Hlt & Hopen & _).
  destruct (candidate_entry filepath content m Hm) as (member & _ & _ & Hu).
  split_and!; [done|lia|done| | | |].
  - apply slice_from_nat.
  - apply args_loop_first_closer.
  - apply args_loop_no_closer.
  - eexists. split; [exact Hu | done].
Qed.

Lemma args_are_text_up_to_first_closer_witness :
  let content := str "toast(f(x), (y)) z" in
  let m := toast_match_of content 0 None 0 3 in
  m ∈ finditer toast_pattern content
  ∧ first_closer (drop 6 content) 9
  ∧ args_loop (drop 6 content) 0 [] = str "f(x), (y)".
Proof.
  intros content m.
  assert (m ∈ finditer toast_pattern content) as Hm by (vm_compute; left).
  assert (first_closer (drop 6 content) 9) as Hk.
  { split; [by split|]. intros j Hj [Hl Hd].
    do 9 (destruct j as [|j]; [by vm_compute in Hl; vm_compute in Hd|]). lia. }
  split_and!; [done..|].
  destruct (args_are_text_up_to_first_closer [] content m Hm)
    as (idx & Hstart & _ & _ & _ & Hfirst & _).
  injection Hstart as Hidx. apply (Nat2Z.inj 6) in Hidx. subst idx.
  exact (Hfirst 9%nat Hk).
Defined.

(** C2, as stated, fails: on [toast(foo(bar(1,2)), "x)y")] neither the
    counter loop nor the entry gives the whole inner text
    [foo(bar(1,2)), "x)y"]. *)
Lemma nested_call_not_whole_inner_text :
  args_loop (slice_from nested_call_text 6) 0 []
    ≠ str "foo(bar(1,2)), " ++ quoted "x)y"
  ∧ ∀ u, u ∈ usages_of [] nested_call_text →
         args u ≠ str "foo(bar(1,2)), " ++ quoted "x)y".
Proof.
  split; [by vm_compute|].
  intros u Hu. vm_compute in Hu.
  apply elem_of_cons in Hu as [->|Hu]; [by vm_compute|].
  by apply elem_of_nil in Hu.
Qed.

(** C2, amended. On [toast(foo(bar(1,2)), "x)y")] the extraction does not
    stop at the first closing parenthesis inside [foo(bar(1,2))], which is
    read at depth 2; it stops at the closing parenthesis inside the string
    literal, which is read at depth 0 because the counter does not know
    string literals. The argument text is [foo(bar(1,2)),] followed by a
    space, the opening double quote and the letter x, and one entry
    reports it. *)
Theorem nested_call_stops_in_string_literal filepath :
  find_char RPAREN (drop 6 nested_call_text) = Some 11%nat
  ∧ depth (take 11 (drop 6 nested_call_text)) = 2%Z
  ∧ first_closer (drop 6 nested_call_text) 17
  ∧ args_loop (slice_from nested_call_text 6) 0 []
    = str "foo(bar(1,2)), " ++ [DQUOTE] ++ str "x"
  ∧ usages_of filepath nested_call_text
    = [{| file := filepath; line := 1; type := str "default";
          args := str "foo(bar(1,2)), " ++ [DQUOTE] ++ str "x" |}].
Proof.
  split_and!; [done|done| |done|done].
  split; [by split|]. intros j Hj [Hl Hd].
  do 17 (destruct j as [|j]; [by vm_compute in Hl; vm_compute in Hd|]). lia.
Qed.

(** A complete-enough call (its opening parenthesis is followed by a
    closing one somewhere) that no found match covers is found. *)
Lemma finditer_detects content p member ws tail :
  drop p content = call_open member ws ++ tail →
  (∀ v, member = Some v → v ∈ all_names) →
  all_space ws → RPAREN ∈ tail →
  (∀ m', m' ∈ finditer toast_pattern content →
         ¬ (m_start m' < p < m_end m')%nat) →
  ∃ body tail',
    drop p content = call_text member ws body ++ tail'
    ∧ (RPAREN ∉ body)
    ∧ toast_match_of content p member (length ws) (length body)
      ∈ finditer toast_pattern content.
Proof.
  intros Hdrop Hmem Hws [i Hi]%elem_of_find_char Hfree.
  apply find_char_split in Hi as (Heq & Hn & Hlen).
  exists (take i tail), (drop (S i) tail).
  assert (drop p content
          = call_text member ws (take i tail) ++ drop (S i) tail) as Hdrop'.
  { rewrite Hdrop, call_text_open. norm_app. by rewrite <- Heq. }
  split_and!; [done..|].
  apply (finditer_from_complete content content 0 0 p); [done|lia|lia| |done].
  rewrite Hdrop'. by apply toast_match_call.
Qed.

Lemma finditer_not_at content p :
  toast_match content (drop p content) p = None →
  ∀ m, m ∈ finditer toast_pattern content → m_start m ≠ p.
Proof.
  intros Hnone m Hm <-.
  apply (finditer_from_sound content) in Hm as (_ & _ & Hm); [|done].
  congruence.
Qed.

Lemma scan_content_no_exception filepath content usage_list :
  snd (scan_content filepath content usage_list) = None.
Proof.
  by destruct (scan_content_entries filepath content usage_list) as (us & -> & _).
Qed.

(** C3, as stated, fails: in [toast(abc] the identifier is followed by an
    opening parenthesis and the text ends before the counter goes negative,
    yet no entry is produced. *)
Lemma unterminated_call_without_closer_not_reported :
  lit (call_open None []) (str "toast(abc") = Some (str "abc")
  ∧ (∀ k, ¬ closer (str "abc") k)
  ∧ usages_of [] (str "toast(abc") = [].
Proof.
  split_and!; [done| |done].
  intros k [Hl _]. by do 3 (destruct k as [|k]; [done|]).
Qed.

(** C3, amended. For every text and every candidate the pattern detects,
    if the text ends before the depth counter goes negative, an entry is
    still produced, its arguments are the clean-up of the whole rest of the
    text after the opening parenthesis, and no exception is raised. The
    pattern detects the identifier followed by an opening parenthesis only
    when a closing parenthesis occurs somewhere after it (and it does not
    begin inside an earlier candidate's span); with no closing parenthesis
    at all after the opening one, no entry is produced for it. *)
Theorem unterminated_args_reported_when_detected filepath content :
  (∀ m, m ∈ finditer toast_pattern content →
        (∀ k, ¬ closer (drop (params_start m) content) k) →
        ∃ u, u ∈ usages_of filepath content
             ∧ process_match filepath content m = Ok u
             ∧ args u = clean_up (drop (params_start m) content))
  ∧ snd (scan_content filepath content []) = None
  ∧ (∀ p member ws tail,
       drop p content = call_open member ws ++ tail →
       (∀ v, member = Some v → v ∈ all_names) →
       all_space ws →
       (RPAREN ∈ tail →
        (∀ m', m' ∈ finditer toast_pattern content →
               ¬ (m_start m' < p < m_end m')%nat) →
        ∃ m, m ∈ finditer toast_pattern content ∧ m_start m = p)
       ∧ (RPAREN ∉ tail →
          ∀ m, m ∈ finditer toast_pattern content → m_start m ≠ p)).
Proof.
  split_and!.
  - intros m Hm Hnone.
    destruct (candidate_entry filepath content m Hm) as (member & _ & _ & Hu).
    eexists. split_and!; [by eapply usages_of_elem|exact Hu|].
    cbn [args]. by rewrite args_loop_no_closer.
  - apply scan_content_no_exception.
  - intros p member ws tail Hdrop Hmem Hws. split.
    + intros Htail Hfree.
      destruct (finditer_detects content p member ws tail)
        as (body & tail' & _ & _ & Hm); [done..|].
      eexists. split; [exact Hm | done].
    + intros Htail. apply finditer_not_at. rewrite Hdrop.
      by apply toast_match_open_none.
Qed.

Lemma unterminated_args_reported_when_detected_witness :
  let content := str "toast(foo(abc)" in
  let m := toast_match_of content 0 None 0 7 in
  m ∈ finditer toast_pattern content
  ∧ (∀ k, ¬ closer (drop (params_start m) content) k)
  ∧ ∃ u, u ∈ usages_of [] content ∧ args u = str "foo(abc)".
Proof.
  intros content m.
  assert (m ∈ finditer toast_pattern content) as Hm by (vm_compute; left).
  assert (∀ k, ¬ closer (drop (params_start m) content) k) as Hnone.
  { intros k [Hl Hd].
    by do 8 (destruct k as [|k]; [by vm_compute in Hl; vm_compute in Hd|]). }
  split_and!; [done..|].
  destruct (unterminated_args_reported_when_detected [] content)
    as (Hrep & _ & _).
  destruct (Hrep m Hm Hnone) as (u & Hin & _ & Hargs).
  exists u. split; [done|]. by rewrite Hargs.
Defined.

(** C4. For every text, the entries are those of the candidates, in
    order, and each entry's line is 1 plus the number of newline characters
    of the original text strictly before the offset where its candidate
    (the identifier) starts; so every line is at least 1. *)
Theorem line_is_one_plus_newlines_before_start filepath content :
  Forall2
    (λ m u,
       process_match filepath content m = Ok u
       ∧ take 5 (drop (m_start m) content) = str "toast"
       ∧ line u = (1 + Z.of_nat (newline_count (take (m_start m) content)))%Z
       ∧ (1 ≤ line u)%Z)
    (finditer toast_pattern content) (usages_of filepath content).
Proof.
  apply usages_of_Forall2. intros m u Hm Hu.
  destruct (candidate_offsets content m Hm) as (Hid & _).
  destruct (candidate_entry filepath content m Hm) as (member & _ & _ & Hu').
  rewrite Hu in Hu'. injection Hu' as ->. cbn [line].
  split_and!; [done|done|lia|lia].
Qed.

(** C5, as stated, fails. In [toast(toast.success("a"))] the call
    [toast.success("a")] begins inside the span of the outer candidate and
    yields no entry with variant [success]; and [toast.mytoast("x")], whose
    member name is not a recognized one, does yield an entry. *)
Lemma nested_success_call_has_no_entry :
  let content := str "toast(toast.success(" ++ quoted "a" ++ str "))" in
  let content' := str "toast.mytoast(" ++ quoted "x" ++ str ")" in
  drop 6 content = call_text (Some (str "success")) [] (quoted "a") ++ str ")"
  ∧ (∀ u, u ∈ usages_of [] content → type u ≠ str "success")
  ∧ (str "mytoast" ∉ all_names)
  ∧ usages_of [] content' ≠ [].
Proof.
  intros content content'. split_and!; [done| | |done].
  - intros u Hu. vm_compute in Hu.
    apply elem_of_cons in Hu as [->|Hu]; [by vm_compute|].
    by apply elem_of_nil in Hu.
  - rewrite all_names_eq. vm_compute.
    intros H. by repeat (apply elem_of_cons in H as [?|H]; [done|]);
      apply elem_of_nil in H.
Qed.

(** C5, amended. For every text: a call [toast.success(...)] that does not
    begin inside an earlier candidate's span yields an entry with variant
    [success] (and likewise for each recognized member name); such a bare
    call [toast(...)] yields variant [default]; where [toast.name(] is
    written with a name outside the recognized set, no candidate is
    detected, so that call yields no entry of its own; and the variant of
    every entry lies in the closed set default, success, error, info,
    warning, loading, custom, message. *)
Theorem variant_of_each_call filepath content :
  (∀ p member ws tail,
     drop p content = call_open member ws ++ tail →
     (∀ v, member = Some v → v ∈ all_names) →
     all_space ws → RPAREN ∈ tail →
     (∀ m', m' ∈ finditer toast_pattern content →
            ¬ (m_start m' < p < m_end m')%nat) →
     ∃ m u, m ∈ finditer toast_pattern content ∧ m_start m = p
            ∧ process_match filepath content m = Ok u
            ∧ u ∈ usages_of filepath content
            ∧ type u = default (str "default") member)
  ∧ (∀ p name ws tail,
       drop p content = str "toast" ++ DOT :: name ++ ws ++ LPAREN :: tail →
       name ∉ all_names →
       (∀ c, c ∈ name → isspace c = false ∧ c ≠ LPAREN) →
       all_space ws →
       ∀ m, m ∈ finditer toast_pattern content → m_start m ≠ p)
  ∧ Forall (λ u, type u ∈ variants) (usages_of filepath content).
Proof.
  split_and!.
  - intros p member ws tail Hdrop Hmem Hws Htail Hfree.
    destruct (finditer_detects content p member ws tail)
      as (body & tail' & Hdrop' & _ & Hm); [done..|].
    pose proof (process_match_toast filepath _ _ _ _ _ _ Hdrop' Hmem) as Hu.
    cbn zeta in Hu. eexists _, _.
    split_and!; [exact Hm|done|exact Hu|by eapply usages_of_elem|done].
  - intros p name ws tail Hdrop Hname Hchars Hws.
    apply finditer_not_at. rewrite Hdrop. by apply toast_match_unknown.
  - apply usages_of_Forall. intros m u Hm Hu.
    destruct (candidate_entry filepath content m Hm) as (member & Hmem & _ & Hu').
    rewrite Hu in Hu'. injection Hu' as ->. cbn [type]. unfold variants.
    destruct member as [v|]; [right; by apply Hmem | by left].
Qed.

Lemma variant_of_each_call_witness :
  let content := str "toast.success(" ++ quoted "Saved" ++ str ")" in
  let content' := str "toast.unknownMember(" ++ quoted "Saved" ++ str ")" in
  (∃ u, u ∈ usages_of [] content ∧ type u = str "success")
  ∧ (∀ m, m ∈ finditer toast_pattern content' → m_start m ≠ 0%nat).
Proof.
  intros content content'. split.
  - destruct (variant_of_each_call [] content) as (Hcall & _ & _).
    destruct (Hcall 0%nat (Some (str "success")) [] (quoted "Saved" ++ str ")"))
      as (m & u & _ & _ & _ & Hin & Hty).
    + done.
    + intros v [= <-]. by left.
    + constructor.
    + apply elem_of_app. right. by left.
    + intros m' _. lia.
    + by exists u.
  - destruct (variant_of_each_call [] content') as (_ & Hunknown & _).
    apply (Hunknown 0%nat (str "unknownMember") [] (quoted "Saved" ++ str ")")).
    + done.
    + rewrite all_names_eq. vm_compute.
      intros H. by repeat (apply elem_of_cons in H as [?|H]; [done|]);
        apply elem_of_nil in H.
    + intros c Hc. vm_compute in Hc.
      by repeat (apply elem_of_cons in Hc as [->|Hc]; [done|]);
        apply elem_of_nil in Hc.
    + constructor.
Defined.

(** ** The clean-up against the whitespace-normalized text *)

Lemma lstrip_app p q :
  lstrip (p ++ q) = match lstrip p with [] => lstrip q | _ => lstrip p ++ q end.
Proof.
  unfold lstrip. induction p as [|c p IH]; [done|]. cbn [app run_length].
  destruct (isspace c); [|done]. cbn [drop]. exact IH.
Qed.

Lemma lstrip_visible c s : isspace c = false → lstrip (c :: s) = c :: s.
Proof. unfold lstrip. cbn [run_length]. by intros ->. Qed.

Lemma lstrip_space c s : isspace c = true → lstrip (c :: s) = lstrip s.
Proof. unfold lstrip. cbn [run_length]. by intros ->. Qed.

Lemma rstrip_nil : rstrip [] = [].
Proof. done. Qed.

Lemma rstrip_app a b :
  rstrip (a ++ b) = match rstrip b with [] => rstrip a | _ => a ++ rstrip b end.
Proof.
  unfold rstrip. rewrite reverse_app, lstrip_app.
  destruct (lstrip (reverse b)) as [|c x] eqn:E; [done|].
  rewrite reverse_app, reverse_involutive.
  by destruct (reverse (c :: x)) eqn:E'; [apply (f_equal length) in E';
    rewrite length_reverse in E'|].
Qed.

Lemma rstrip_snoc_visible a c : isspace c = false → rstrip (a ++ [c]) = a ++ [c].
Proof.
  intros Hc. unfold rstrip. rewrite reverse_app. cbn [reverse app].
  change (reverse [c]) with [c]. cbn [app].
  rewrite lstrip_visible by done.
  change (c :: reverse a) with ([c] ++ reverse a).
  by rewrite reverse_app, reverse_involutive.
Qed.

Lemma rstrip_word w : word w → rstrip w = w.
Proof.
  intros [Hne Hw]. destruct (last w) as [c|] eqn:El.
  - apply last_Some in El as [a ->]. apply rstrip_snoc_visible.
    apply Forall_app in Hw as [_ Hc]. by apply Forall_cons in Hc as [? _].
  - apply last_None in El. congruence.
Qed.

Lemma rstrip_word_app w x : word w → rstrip (w ++ x) ≠ [].
Proof.
  intros Hw. rewrite rstrip_app. destruct (rstrip x) eqn:E.
  - rewrite rstrip_word by done. by destruct Hw.
  - destruct Hw as [Hne _]. by destruct w.
Qed.

Lemma join_nil_inv ws : Forall word ws → join [SPACE] ws = [] → ws = [].
Proof.
  destruct 1 as [|w ws [Hne _] _]; [done|]. cbn [join].
  destruct ws; [done|]. by destruct w.
Qed.

(** The collapsed text, once its trailing whitespace is removed, is what
    [split] and [join] build: after a word being read, and inside a run. *)
Lemma rstrip_collapse_runs s :
  (∀ w, word w →
        rstrip (w ++ collapse_runs s false) = join [SPACE] (split_from s w))
  ∧ rstrip (collapse_runs s true) = join [SPACE] (split_from s []).
Proof.
  induction s as [|c s [IHw IHr]]; cbn [collapse_runs split_from].
  - split; [|done]. intros w Hw. rewrite app_nil_r.
    rewrite rstrip_word by done. destruct Hw as [Hne _]. by destruct w.
  - destruct (isspace c) eqn:Hc.
    + split; [|done]. intros w Hw.
      assert (match w with [] => split_from s [] | _ :: _ => w :: split_from s [] end
              = w :: split_from s []) as -> by (destruct Hw as [Hne _]; by destruct w).
      rewrite rstrip_app.
      change (SPACE :: collapse_runs s true) with ([SPACE] ++ collapse_runs s true).
      rewrite rstrip_app, IHr.
      destruct (join [SPACE] (split_from s [])) as [|d n] eqn:Ej.
      * apply join_nil_inv in Ej as ->; [|apply split_from_words; constructor].
        change (rstrip [SPACE]) with (@nil N). cbn [join].
        by apply rstrip_word.
      * cbn [app join]. destruct (split_from s []) as [|w' L] eqn:EL; [done|].
        by rewrite <- Ej.
    + assert (word [c]) as Hword by (split; [done | by repeat constructor]).
      split.
      * intros w Hw.
        change (c :: collapse_runs s false) with ([c] ++ collapse_runs s false).
        rewrite app_assoc. apply IHw. destruct Hw as [Hne Hw].
        split; [by destruct w|]. apply Forall_app. split; [done|]. by destruct Hword.
      * change (c :: collapse_runs s false) with ([c] ++ collapse_runs s false).
        by apply IHw.
Qed.

Lemma lstrip_collapse_runs s :
  lstrip (collapse_runs s true) = collapse_runs s true
  ∧ lstrip (collapse_runs s false) = collapse_runs s true.
Proof.
  induction s as [|c s [IH1 IH2]]; [done|]. cbn [collapse_runs].
  destruct (isspace c) eqn:Hc.
  - split; [done|]. by rewrite lstrip_space.
  - by rewrite lstrip_visible.
Qed.

(** What the program computes with [split] and [join] is the
    whitespace-normalized text. *)
Lemma normalize_whitespace_normalized s : normalize s = whitespace_normalized s.
Proof.
  unfold whitespace_normalized, strip, normalize, split.
  destruct (lstrip_collapse_runs s) as [_ ->].
  by destruct (rstrip_collapse_runs s) as [_ ->].
Qed.

(** C6. For every text and every entry, with [raw] the argument text the
    counter loop extracted for its candidate: the reported arguments have
    at most 103 characters; when the whitespace-normalized [raw] (every run
    of whitespace collapsed to one space, none left at either end) has at
    most 100 characters they are exactly that text, and otherwise its first
    100 characters followed by the three dots; and a [raw] of 150
    characters, none of them whitespace, is reported as exactly 103
    characters, its first 100 followed by the three dots. Normalizing is
    idempotent, so the clean-up leaves an already normalized text of at
    most 100 characters as it is. *)
Theorem args_summary_bounded_and_truncated filepath content :
  Forall2
    (λ m u,
       let raw := args_loop (drop (params_start m) content) 0 [] in
       process_match filepath content m = Ok u
       ∧ args u = clean_up raw
       ∧ (length (args u) ≤ 103)%nat
       ∧ ((length (whitespace_normalized raw) ≤ 100)%nat →
          args u = whitespace_normalized raw)
       ∧ ((100 < length (whitespace_normalized raw))%nat →
          args u = take 100 (whitespace_normalized raw) ++ str "...")
       ∧ (length raw = 150%nat → no_space raw →
          length (args u) = 103%nat
          ∧ args u = take 100 raw ++ str "..."
          ∧ drop 100 (args u) = str "..."))
    (finditer toast_pattern content) (usages_of filepath content)
  ∧ ∀ s, whitespace_normalized (whitespace_normalized s)
         = whitespace_normalized s
         ∧ ((length (whitespace_normalized s) ≤ 100)%nat →
            clean_up (whitespace_normalized s) = whitespace_normalized s).
Proof.
  split.
  - apply usages_of_Forall2. intros m u Hm Hu.
    destruct (candidate_entry filepath content m Hm) as (member & _ & _ & Hu').
    rewrite Hu in Hu'. injection Hu' as ->. cbn [args].
    set (raw := args_loop _ _ _).
    rewrite <- normalize_whitespace_normalized.
    split_and!; [done|done|apply clean_up_length| | |].
    + intros Hlen. destruct (clean_up_cases raw) as [[_ ->]|[? _]]; [done|lia].
    + intros Hlen. destruct (clean_up_cases raw) as [[? _]|[_ ->]]; [lia|done].
    + intros Hlen Hns.
      assert (normalize raw = raw) as Hnorm.
      { apply normalize_word. split; [|done]. by intros ->. }
      destruct (clean_up_cases raw) as [[? _]|[_ ->]]; [rewrite Hnorm in *; lia|].
      rewrite Hnorm. split_and!; [|done|].
      * rewrite length_app, length_take.
        change (length (str "...")) with 3%nat. lia.
      * rewrite drop_app_length'; [done|]. rewrite length_take. lia.
  - intros s. rewrite <- !normalize_whitespace_normalized.
    split; [apply normalize_idempotent|].
    intros Hlen. destruct (clean_up_cases (normalize s)) as [[_ ->]|[Hgt _]].
    + apply normalize_idempotent.
    + rewrite normalize_idempotent in Hgt. lia.
Qed.

Lemma args_summary_bounded_and_truncated_witness :
  let long := replicate 150 97 in
  let spaced := str "  a" ++ [NL; 9] ++ str " b, " ++ [13; NL] ++ str "c  " in
  length long = 150%nat ∧ no_space long
  ∧ (length (whitespace_normalized spaced) ≤ 100)%nat
  ∧ whitespace_normalized spaced = str "a b, c"
  ∧ (∃ u, usages_of [] (str "toast(" ++ long ++ str ")") = [u]
          ∧ length (args u) = 103%nat
          ∧ args u = replicate 100 97 ++ str "...")
  ∧ (∃ u, usages_of [] (str "toast(" ++ spaced ++ str ")") = [u]
          ∧ args u = str "a b, c").
Proof.
  intros long spaced.
  assert (no_space long) as Hns by (apply Forall_replicate; done).
  assert (length (whitespace_normalized spaced) ≤ 100)%nat as Hlen
    by (vm_compute; lia).
  split_and!; [done..| |].
  - destruct (args_summary_bounded_and_truncated []
                (str "toast(" ++ long ++ str ")")) as [HF _].
    assert (finditer toast_pattern (str "toast(" ++ long ++ str ")")
            = [toast_match_of (str "toast(" ++ long ++ str ")") 0 None 0 150])
      as Hms by by vm_compute.
    rewrite Hms in HF.
    apply Forall2_cons_inv_l in HF as (u & us & Hu & Hus & Heq).
    apply Forall2_nil_inv_l in Hus as ->.
    exists u. split; [done|].
    destruct Hu as (_ & _ & _ & _ & _ & H150).
    destruct H150 as (H103 & Hargs & _); [done..|]. by split.
  - destruct (args_summary_bounded_and_truncated []
                (str "toast(" ++ spaced ++ str ")")) as [HF _].
    assert (finditer toast_pattern (str "toast(" ++ spaced ++ str ")")
            = [toast_match_of (str "toast(" ++ spaced ++ str ")") 0 None 0 14])
      as Hms by by vm_compute.
    rewrite Hms in HF.
    apply Forall2_cons_inv_l in HF as (u & us & Hu & Hus & Heq).
    apply Forall2_nil_inv_l in Hus as ->.
    exists u. split; [done|].
    destruct Hu as (_ & _ & _ & Hshort & _). by apply Hshort.
Defined.

(** C7. For every text and every entry, the reported arguments contain no
    newline character, no two space characters in a row, and no whitespace
    at the start or at the end; the only whitespace character they can
    contain at all is the single space. *)
Theorem args_summary_whitespace_normal filepath content :
  Forall
    (λ u,
       (NL ∉ args u)
       ∧ no_space_run (args u)
       ∧ stripped (args u)
       ∧ ∀ c, c ∈ args u → isspace c = true → c = SPACE)
    (usages_of filepath content).
Proof.
  apply usages_of_Forall. intros m u Hm Hu.
  destruct (candidate_entry filepath content m Hm) as (member & _ & _ & Hu').
  rewrite Hu in Hu'. injection Hu' as ->. cbn [args].
  split_and!.
  - apply clean_up_no_newline.
  - apply clean_up_no_space_run.
  - apply clean_up_stripped.
  - apply clean_up_space.
Qed.

Lemma args_summary_whitespace_normal_witness :
  let content := str "toast( a " ++ [NL] ++ str "   b  )" in
  ∃ u, usages_of [] content = [u]
       ∧ args u = str "a b"
       ∧ (NL ∉ args u) ∧ no_space_run (args u) ∧ stripped (args u).
Proof.
  intros content.
  pose proof (args_summary_whitespace_normal [] content) as HF.
  assert (∃ u, usages_of [] content = [u] ∧ args u = str "a b")
    as (u & Hus & Hargs) by by eexists.
  rewrite Hus in HF. apply Forall_cons in HF as [(Hnl & Hrun & Hstrip & _) _].
  by exists u.
Defined.

Lemma scan_files_no_exception files usage_list :
  snd (scan_files files usage_list) = [].
Proof.
  revert usage_list.
  induction files as [|[filepath content] files IH]; intros usage_list; [done|].
  cbn [scan_files].
  destruct (scan_content_entries filepath content usage_list) as (us & -> & _).
  specialize (IH (usage_list ++ us)).
  by destruct (scan_files files (usage_list ++ us)) as [usage_list' printed].
Qed.

(** C8. The extractor is total: for every text, well-formed or not, no
    step of the scan raises - the handler of the [try] block is never
    reached - and the result is the list it was given followed by one entry
    per candidate (possibly none); over any sequence of files nothing is
    ever reported by the handler. *)
Theorem scan_never_raises filepath content usage_list :
  (∃ us,
     scan_content filepath content usage_list = (usage_list ++ us, None)
     ∧ Forall2 (λ m u, process_match filepath content m = Ok u)
         (finditer toast_pattern content) us
     ∧ length us = length (finditer toast_pattern content))
  ∧ ∀ files, snd (scan_files files usage_list) = [].
Proof.
  split.
  - destruct (scan_content_entries filepath content usage_list) as (us & Hs & HF).
    exists us. split_and!; [done..|]. symmetry. by eapply Forall2_length.
  - intros files. apply scan_files_no_exception.
Qed.

(** C9. The identifier is matched as a bare piece of text, without a
    word-boundary check: in [showtoast("x")] it occurs only as the end of a
    longer identifier, and an entry with variant [default] is produced for
    the candidate starting at offset 4. *)
Theorem suffix_of_longer_identifier_is_matched filepath :
  let content := str "showtoast(" ++ quoted "x" ++ str ")" in
  List.map m_start (finditer toast_pattern content) = [4%nat]
  ∧ usages_of filepath content
    = [{| file := filepath; line := 1; type := str "default";
          args := quoted "x" |}].
Proof. done. Qed.

Lemma StronglySorted_lookup {A} (R : A → A → Prop) l a b x y :
  StronglySorted R l → l !! a = Some x → l !! b = Some y → (a < b)%nat → R x y.
Proof.
  intros Hs. revert a b. induction Hs as [|z l Hs IH Hall]; intros a b Ha Hb Hab.
  - done.
  - destruct b as [|b]; [lia|]. destruct a as [|a].
    + injection Ha as ->. rewrite Forall_forall in Hall. apply Hall.
      apply list_elem_of_lookup. by exists b.
    + apply (IH a b); [done|done|lia].
Qed.

(** C10. Matching does not overlap. The span of a candidate goes from its
    start through the first closing parenthesis after its opening one, and
    no other candidate begins inside it (nor do two candidates begin at the
    same offset), so an occurrence of the identifier there has no entry of
    its own; [toast(toast("a"))] yields exactly one entry, with the
    arguments [toast("a")]. *)
Theorem matches_do_not_overlap filepath content :
  (∀ m, m ∈ finditer toast_pattern content →
        content !! (params_start m - 1)%nat = Some LPAREN
        ∧ (m_start m < params_start m < m_end m)%nat
        ∧ content !! (m_end m - 1)%nat = Some RPAREN
        ∧ (RPAREN ∉ take (m_end m - 1 - params_start m)
                      (drop (params_start m) content))
        ∧ ∀ m', m' ∈ finditer toast_pattern content →
                ¬ (m_start m < m_start m' < m_end m)%nat)
  ∧ StronglySorted (λ m1 m2, (m_end m1 ≤ m_start m2)%nat)
      (finditer toast_pattern content)
  ∧ usages_of filepath (str "toast(toast(" ++ quoted "a" ++ str "))")
    = [{| file := filepath; line := 1; type := str "default";
          args := str "toast(" ++ quoted "a" ++ str ")" |}].
Proof.
  pose proof (finditer_from_sorted content content 0 0 eq_refl) as Hsorted.
  split_and!; [|done|done].
  intros m Hm.
  destruct (candidate_offsets content m Hm)
    as (_ & _ & ? & Hopen & ? & Hclose & Hfirst & _).
  split_and!; [done|lia|lia|done|done|].
  intros m' Hm' [Hlo Hhi].
  fold (finditer toast_pattern content) in Hsorted.
  apply list_elem_of_lookup in Hm as [i Hi].
  apply list_elem_of_lookup in Hm' as [j Hj].
  assert (∀ a b x y, finditer toast_pattern content !! a = Some x →
            finditer toast_pattern content !! b = Some y →
            (a < b)%nat → (m_end x ≤ m_start y)%nat) as Hord.
  { intros a b x y Ha Hb Hab.
    by apply (StronglySorted_lookup _ _ a b x y Hsorted Ha Hb). }
  destruct (Nat.lt_trichotomy i j) as [Hij|[->|Hji]].
  - specialize (Hord i j m m' Hi Hj Hij). lia.
  - rewrite Hi in Hj. injection Hj as ->. lia.
  - specialize (Hord j i m' m Hj Hi Hji).
    destruct (candidate_offsets content m'
                (proj2 (list_elem_of_lookup _ _) (ex_intro _ j Hj)))
      as (_ & _ & ? & _ & ? & _).
    lia.
Qed.

Lemma matches_do_not_overlap_witness :
  let content := str "toast(toast(" ++ quoted "a" ++ str "))" in
  let m := toast_match_of content 0 None 0 9 in
  m ∈ finditer toast_pattern content
  ∧ take 6 (drop 6 content) = str "toast("
  ∧ (m_start m < 6 < m_end m)%nat
  ∧ ∀ m', m' ∈ finditer toast_pattern content → m_start m' ≠ 6%nat.
Proof.
  intros content m.
  assert (m ∈ finditer toast_pattern content) as Hm by (vm_compute; left).
  assert (m_start m < 6 < m_end m)%nat as Hin by (vm_compute; lia).
  split_and!; [done|done|lia|lia|].
  destruct (matches_do_not_overlap [] content) as (Hspan & _ & _).
  destruct (Hspan m Hm) as (_ & _ & _ & _ & Hfree).
  intros m' Hm' Heq. apply (Hfree m' Hm'). rewrite Heq. exact Hin.
Defined.

(** ** The scenarios of the specification, run on the model *)

(** Two calls on two lines. *)
Example two_calls_on_two_lines filepath :
  usages_of filepath
    (str "toast(" ++ quoted "Hello" ++ str ")" ++ [NL]
     ++ str "toast.error(" ++ quoted "Failed: " ++ str " + reason)" ++ [NL])
  = [{| file := filepath; line := 1; type := str "default";
        args := quoted "Hello" |};
     {| file := filepath; line := 2; type := str "error";
        args := quoted "Failed: " ++ str " + reason" |}].
Proof. done. Qed.

(** The three classification scenarios. *)
Example classification_scenarios :
  List.map type (usages_of [] (str "toast.success(" ++ quoted "Saved" ++ str ")"))
  = [str "success"]
  ∧ List.map type (usages_of [] (str "toast(" ++ quoted "Saved" ++ str ")"))
    = [str "default"]
  ∧ usages_of [] (str "toast.unknownMember(" ++ quoted "Saved" ++ str ")") = [].
Proof. done. Qed.

(** Entries of several files are collected in the order of the files. *)
Example entries_of_two_files :
  List.map (λ u, (file u, line u))
    (find_toast_usages
       [(str "a.ts", str "toast(1)"); (str "b.tsx", [NL] ++ str "toast.info(2)")])
  = [(str "a.ts", 1%Z); (str "b.tsx", 2%Z)].
Proof. done. Qed.

(** * Further properties of the scanner *)

(** ** The counter loop *)

Lemma args_loop_prefix_nonneg chars balance full_args :
  (0 ≤ balance)%Z →
  ∃ k, args_loop chars balance full_args = full_args ++ take k chars
       ∧ ∀ j, (0 ≤ foldl step_depth balance (take j (take k chars)))%Z.
Proof.
  revert balance full_args.
  induction chars as [|c chars IH]; intros balance full_args Hb.
  - exists 0%nat. rewrite app_nil_r. split; [done|]. intros j.
    rewrite !take_nil. cbn [foldl]. lia.
  - rewrite args_loop_step.
    destruct (Z.ltb_spec (step_depth balance c) 0) as [Hneg|Hpos].
    + exists 0%nat. rewrite app_nil_r. split; [done|]. intros j.
      rewrite take_0, take_nil. cbn [foldl]. lia.
    + destruct (IH (step_depth balance c) (full_args ++ [c]) Hpos)
        as (k & -> & Hk).
      exists (S k). split; [by rewrite <- app_assoc|].
      intros [|j]; [cbn; lia|]. apply Hk.
Qed.

(** X1. Whatever the text, the argument text the counter loop returns is a
    prefix of the text it was given, and at no point inside it does a
    closing parenthesis lack its opening one: the depth after each of its
    prefixes is at least 0. *)
Theorem extracted_args_never_close_too_much chars :
  ∃ k, args_loop chars 0 [] = take k chars
       ∧ ∀ j, (0 ≤ depth (take j (args_loop chars 0 [])))%Z.
Proof.
  destruct (args_loop_prefix_nonneg chars 0 []) as (k & Hk & Hd); [done|].
  exists k. split; [done|]. intros j. rewrite Hk. apply Hd.
Qed.

Lemma args_loop_app_no_closer body rest balance full_args :
  RPAREN ∉ body → (0 ≤ balance)%Z →
  args_loop (body ++ rest) balance full_args
  = args_loop rest (foldl step_depth balance body) (full_args ++ body)
  ∧ (balance ≤ foldl step_depth balance body)%Z
  ∧ (LPAREN ∉ body → foldl step_depth balance body = balance).
Proof.
  revert balance full_args.
  induction body as [|c body IH]; intros balance full_args Hn Hb.
  - by rewrite app_nil_r.
  - apply not_elem_of_cons in Hn as [Hc Hn].
    cbn [app foldl]. rewrite args_loop_step.
    assert (balance ≤ step_depth balance c)%Z as Hstep.
    { unfold step_depth. destruct (N.eqb_spec c LPAREN); [lia|].
      destruct (N.eqb_spec c RPAREN); [done | lia]. }
    destruct (Z.ltb_spec (step_depth balance c) 0); [lia|].
    destruct (IH (step_depth balance c) (full_args ++ [c])) as (-> & Hle & Heq);
      [done|lia|].
    split_and!; [by rewrite <- app_assoc | lia |].
    intros [Hc' Hn']%not_elem_of_cons. rewrite Heq by done.
    unfold step_depth. destruct (N.eqb_spec c LPAREN); [done|].
    by destruct (N.eqb_spec c RPAREN).
Qed.

(** Where the arguments of a candidate lie: the text captured by group 2,
    then the closing parenthesis that ends the match. *)
Lemma candidate_args content m :
  m ∈ finditer toast_pattern content →
  ∃ body tail,
    drop (params_start m) content = body ++ RPAREN :: tail
    ∧ (RPAREN ∉ body)
    ∧ group m 2 = Ok (Some body)
    ∧ m_end m = (params_start m + length body + 1)%nat.
Proof.
  intros (member & ws & body & tail & Hdrop & Hmem & _ & Hbody & Hm)%finditer_candidate.
  set (p := m_start m) in *. clearbody p. subst m.
  set (pre := str "toast" ++ from_option (λ v, DOT :: v) [] member ++ ws ++ [LPAREN]).
  assert (drop p content = pre ++ body ++ RPAREN :: tail) as Hdrop'.
  { rewrite Hdrop. unfold call_text, pre. by norm_app. }
  assert (params_start (toast_match_of content p member (length ws) (length body))
          = (p + length pre)%nat) as Hps.
  { unfold pre. rewrite !length_app. change (length (str "toast")) with 5%nat.
    destruct member; cbn; lia. }
  assert (drop (p + length pre) content = body ++ RPAREN :: tail) as Hargs.
  { by rewrite <- drop_drop, Hdrop', drop_app_length. }
  set (m := toast_match_of content p member (length ws) (length body)) in *.
  assert (m_groups m !! 1%nat
          = Some (Some (params_start m, params_start m + length body)%nat))
    as Hg2 by (by destruct member).
  assert (m_end m = (params_start m + length body + 1)%nat) as Hend
    by (by destruct member).
  exists body, tail. rewrite <- Hps in Hargs. split_and!; [done|done| |done].
  unfold group, group_span. rewrite Hg2.
  cbn [mbind result_bind mret result_ret]. do 2 f_equal.
  replace (params_start m + length body - params_start m)%nat
    with (length body) by lia.
  change (m_string m) with content.
  by rewrite Hargs, take_app_length.
Qed.

(** X2. For every candidate, the text the pattern captured as group 2 (it
    ends before the first closing parenthesis) is a prefix of the argument
    text the counter loop extracts, and the two are equal when the captured
    text holds no opening parenthesis. *)
Theorem counted_args_extend_captured_args content m :
  m ∈ finditer toast_pattern content →
  ∃ captured more,
    group m 2 = Ok (Some captured)
    ∧ (RPAREN ∉ captured)
    ∧ args_loop (drop (params_start m) content) 0 [] = captured ++ more
    ∧ (LPAREN ∉ captured → more = []).
Proof.
  intros (body & tail & Hdrop & Hbody & Hgroup & _)%candidate_args.
  rewrite Hdrop.
  destruct (args_loop_app_no_closer body (RPAREN :: tail) 0 [] Hbody)
    as (Hloop & Hle & Heq); [done|].
  rewrite Hloop. cbn [app].
  destruct (args_loop_prefix_nonneg (RPAREN :: tail)
              (foldl step_depth 0%Z body) body Hle) as (k & Hk & _).
  exists body, (take k (RPAREN :: tail)). split_and!; [done..|].
  intros Hno. rewrite Heq in Hk by done. rewrite args_loop_step in Hk.
  change (step_depth 0 RPAREN <? 0)%Z with true in Hk.
  by apply (app_inv_head body); rewrite <- Hk, app_nil_r.
Qed.

Lemma counted_args_extend_captured_args_witness :
  let content := str "toast(f(x), y)" in
  let m := toast_match_of content 0 None 0 3 in
  m ∈ finditer toast_pattern content
  ∧ ∃ more, group m 2 = Ok (Some (str "f(x"))
            ∧ args_loop (drop 6 content) 0 [] = str "f(x" ++ more.
Proof.
  intros content m.
  assert (m ∈ finditer toast_pattern content) as Hm by (vm_compute; left).
  split; [done|].
  destruct (counted_args_extend_captured_args content m Hm)
    as (captured & more & Hg & _ & Hloop & _).
  assert (captured = str "f(x") as -> by (by injection Hg as <-).
  by exists more.
Defined.

(** ** Order and number of the entries *)

Lemma newline_count_app s t :
  newline_count (s ++ t) = (newline_count s + newline_count t)%nat.
Proof. unfold newline_count. by rewrite filter_app, length_app. Qed.

Lemma newline_count_take_mono (s : text) a b :
  (a ≤ b)%nat → (newline_count (take a s) ≤ newline_count (take b s))%nat.
Proof.
  intros Hab. replace b with (a + (b - a))%nat by lia.
  rewrite <- take_take_drop, newline_count_app. lia.
Qed.

Lemma newline_count_take_le (s : text) a :
  (newline_count (take a s) ≤ newline_count s)%nat.
Proof.
  rewrite <- (take_drop a s) at 2. rewrite newline_count_app. lia.
Qed.

Lemma Forall2_StronglySorted {A B} (R : A → B → Prop)
    (S : A → A → Prop) (T : B → B → Prop) l k :
  (∀ a1 a2 b1 b2, S a1 a2 → R a1 b1 → R a2 b2 → T b1 b2) →
  Forall2 R l k → StronglySorted S l → StronglySorted T k.
Proof.
  intros HT HF. induction HF as [|a b l k Hab HF IH]; intros Hs; [constructor|].
  inversion Hs as [|? ? Hs' Hall]; subst. constructor; [by apply IH|].
  rewrite Forall_forall in Hall. rewrite Forall_forall. intros b' Hb'.
  apply list_elem_of_lookup in Hb' as [i Hi].
  destruct (Forall2_lookup_r _ _ _ _ _ HF Hi) as (a' & Ha' & Hab').
  apply (HT a a' b b'); [|done|done].
  apply Hall. apply list_elem_of_lookup. by exists i.
Qed.

Lemma StronglySorted_elem {A} (R : A → A → Prop) l l0 :
  l ⊆ l0 → StronglySorted R l → StronglySorted (λ x y, x ∈ l0 ∧ R x y) l.
Proof.
  intros Hsub Hs. induction Hs as [|x l Hs IH Hall]; constructor.
  - apply IH. intros y Hy. apply Hsub. by right.
  - rewrite Forall_forall in Hall. rewrite Forall_forall. intros y Hy.
    split; [apply Hsub; by left | by apply Hall].
Qed.

(** X3. The entries of one text come in the order of the text: their line
    numbers never decrease along the list, and each lies between 1 and 1
    plus the number of newline characters of the whole text. *)
Theorem lines_never_decrease filepath content :
  StronglySorted (λ u1 u2, (line u1 ≤ line u2)%Z) (usages_of filepath content)
  ∧ Forall (λ u, (1 ≤ line u ≤ 1 + Z.of_nat (newline_count content))%Z)
      (usages_of filepath content).
Proof.
  split.
  - eapply (Forall2_StronglySorted _
              (λ m1 m2, m1 ∈ finditer toast_pattern content
                        ∧ (m_end m1 ≤ m_start m2)%nat)).
    2:{ apply (usages_of_Forall2 filepath content
                 (λ m u, m ∈ finditer toast_pattern content
                         ∧ line u = (1 + Z.of_nat (newline_count
                                      (take (m_start m) content)))%Z)).
        intros m u Hm Hu.
        destruct (candidate_entry filepath content m Hm) as (? & _ & _ & Hu').
        rewrite Hu in Hu'. injection Hu' as ->. split; [done|]. cbn [line]. lia. }
    + intros m1 m2 u1 u2 [Hm1 Hle] [_ H1] [_ H2]. rewrite H1, H2.
      destruct (candidate_offsets content m1 Hm1) as (_ & _ & ? & _ & ? & _).
      pose proof (newline_count_take_mono content (m_start m1) (m_start m2)).
      lia.
    + pose proof (finditer_from_sorted content content 0 0 eq_refl) as Hs.
      by apply StronglySorted_elem.
  - apply usages_of_Forall. intros m u Hm Hu.
    destruct (candidate_entry filepath content m Hm) as (? & _ & _ & Hu').
    rewrite Hu in Hu'. injection Hu' as ->. cbn [line].
    pose proof (newline_count_take_le content (m_start m)). lia.
Qed.

Lemma Forall2_functional {A B} (R : A → B → Prop) l k k' :
  (∀ a b b', R a b → R a b' → b = b') →
  Forall2 R l k → Forall2 R l k' → k = k'.
Proof.
  intros Hfun HF. revert k'.
  induction HF as [|a b l k Hab HF IH]; intros k' HF'.
  - by apply Forall2_nil_inv_l in HF'.
  - apply Forall2_cons_inv_l in HF' as (b' & k'' & Hab' & HF' & ->).
    f_equal; [by eapply Hfun | by apply IH].
Qed.

Lemma scan_content_appends filepath content usage_list :
  scan_content filepath content usage_list
  = (usage_list ++ usages_of filepath content, None).
Proof.
  destruct (scan_content_entries filepath content usage_list) as (us & -> & HF).
  do 2 f_equal.
  eapply Forall2_functional; [|exact HF|apply usages_of_entries].
  intros m u u' H H'. cbv beta in H, H'. rewrite H in H'. by injection H'.
Qed.

Lemma usages_of_file filepath content :
  Forall (λ u, file u = filepath) (usages_of filepath content).
Proof.
  apply usages_of_Forall. intros m u Hm Hu.
  destruct (candidate_entry filepath content m Hm) as (? & _ & _ & Hu').
  rewrite Hu in Hu'. by injection Hu' as ->.
Qed.

(** X4. Scanning a text only appends: the entries already in the list stay
    where they are, the new ones follow them, carry the path of the scanned
    file and do not depend on what the list held. *)
Theorem scan_appends_entries_of_the_file filepath content usage_list :
  scan_content filepath content usage_list
  = (usage_list ++ usages_of filepath content, None)
  ∧ Forall (λ u, file u = filepath) (usages_of filepath content).
Proof.
  split; [apply scan_content_appends | apply usages_of_file].
Qed.

Lemma scan_files_concat files usage_list :
  scan_files files usage_list
  = (usage_list ++ concat (List.map (λ fc, usages_of fc.1 fc.2) files), []).
Proof.
  revert usage_list.
  induction files as [|[filepath content] files IH]; intros usage_list.
  - cbn. by rewrite app_nil_r.
  - cbn [scan_files List.map concat fst snd].
    rewrite scan_content_appends, IH. by rewrite <- app_assoc.
Qed.

(** X5. The entries of a sequence of files are the entries of each file
    on its own, one file after the other: the scan of a file is not
    affected by the files before it, and scanning two sequences in a row
    gives the two results in a row. *)
Theorem files_are_scanned_independently files files' :
  find_toast_usages files
  = concat (List.map (λ fc, usages_of fc.1 fc.2) files)
  ∧ find_toast_usages (files ++ files')
    = find_toast_usages files ++ find_toast_usages files'.
Proof.
  unfold find_toast_usages. rewrite !scan_files_concat. cbn [fst app].
  split; [done|]. by rewrite List.map_app, concat_app.
Qed.

Lemma usages_of_nil filepath content :
  finditer toast_pattern content = [] → usages_of filepath content = [].
Proof.
  intros Hnil. pose proof (usages_of_entries filepath content) as HF.
  rewrite Hnil in HF. by apply Forall2_nil_inv_l in HF.
Qed.

(** X6. A text yields no entry at all unless it contains the identifier
    [toast], an opening parenthesis and a closing parenthesis; in
    particular the empty text yields none. *)
Theorem no_entry_without_identifier_and_parentheses filepath content :
  ¬ occurs_in (str "toast") content ∨ LPAREN ∉ content ∨ RPAREN ∉ content →
  usages_of filepath content = [].
Proof.
  intros Hmissing. apply usages_of_nil, elem_of_nil_inv. intros m Hm.
  destruct (candidate_offsets content m Hm)
    as (Hid & _ & _ & Hopen & _ & Hclose & _).
  destruct Hmissing as [Hno|[Hno|Hno]]; apply Hno.
  - exists (take (m_start m) content), (drop 5 (drop (m_start m) content)).
    by rewrite <- Hid, take_drop, take_drop.
  - by eapply list_elem_of_lookup_2.
  - by eapply list_elem_of_lookup_2.
Qed.

Lemma no_entry_without_identifier_and_parentheses_witness :
  (LPAREN ∉ str "const t = toast;")
  ∧ usages_of [] (str "const t = toast;") = []
  ∧ usages_of [] [] = [].
Proof.
  assert (LPAREN ∉ str "const t = toast;") as Hno.
  { intros H. vm_compute in H.
    by repeat (apply elem_of_cons in H as [?|H]; [done|]);
      apply elem_of_nil in H. }
  split_and!; [done| |].
  - apply no_entry_without_identifier_and_parentheses. right. by left.
  - apply no_entry_without_identifier_and_parentheses. right. left.
    apply not_elem_of_nil.
Defined.

Lemma sorted_spans_fit (ms : list Match) lo len :
  StronglySorted (λ m1 m2, (m_end m1 ≤ m_start m2)%nat) ms →
  Forall (λ m, (lo ≤ m_start m ∧ m_start m + 7 ≤ m_end m ∧ m_end m ≤ len)%nat) ms →
  (lo ≤ len)%nat →
  (lo + 7 * length ms ≤ len)%nat.
Proof.
  intros Hs. revert lo. induction Hs as [|m ms Hs IH Hall]; intros lo HF Hlo.
  - cbn. lia.
  - apply Forall_cons in HF as [(H1 & H2 & H3) HF].
    specialize (IH (m_end m)). cbn [length].
    assert (m_end m + 7 * length ms ≤ len)%nat; [|lia].
    apply IH; [|done].
    rewrite Forall_forall in Hall, HF. rewrite Forall_forall. intros m' Hm'.
    specialize (Hall m' Hm'). destruct (HF m' Hm') as (_ & ? & ?).
    split_and!; [done..].
Qed.

(** X7. A candidate takes at least the seven characters of [toast()] and
    candidates do not overlap, so a text of [n] characters yields at most
    [n / 7] entries. *)
Theorem entries_bounded_by_text_length filepath content :
  (7 * length (usages_of filepath content) ≤ length content)%nat.
Proof.
  rewrite <- (Forall2_length _ _ _ (usages_of_entries filepath content)).
  apply (sorted_spans_fit _ 0 (length content)); [| |lia].
  - apply (finditer_from_sorted content content 0 0 eq_refl).
  - apply Forall_forall. intros m Hm.
    destruct (candidate_offsets content m Hm) as (_ & _ & ? & _ & ? & _ & _ & ?).
    lia.
Qed.

(** ** What the clean-up keeps *)

Lemma concat_split_from s w :
  concat (split_from s w) = w ++ List.filter visible s.
Proof.
  revert w. induction s as [|c s IH]; intros w; cbn [split_from List.filter].
  - destruct w; [done|]. cbn. by rewrite !app_nil_r.
  - unfold visible at 1. destruct (isspace c); cbn [negb].
    + destruct w; [by rewrite IH|]. cbn [concat]. by rewrite IH.
    + rewrite IH. by rewrite <- app_assoc.
Qed.

Lemma filter_visible_word w : no_space w → List.filter visible w = w.
Proof.
  induction 1 as [|c w Hc _ IH]; [done|].
  cbn. unfold visible at 1. rewrite Hc. cbn. by rewrite IH.
Qed.

Lemma filter_visible_join ws :
  Forall word ws → List.filter visible (join [SPACE] ws) = concat ws.
Proof.
  induction 1 as [|w ws [_ Hw] _ IH]; [done|]. cbn [join concat].
  destruct ws as [|w' ws].
  - by rewrite app_nil_r, filter_visible_word.
  - rewrite List.filter_app, filter_visible_word by done.
    cbn [app List.filter]. change (visible SPACE) with false.
    cbn [negb]. by rewrite IH.
Qed.

Lemma filter_visible_normalize s :
  List.filter visible (normalize s) = List.filter visible s.
Proof.
  unfold normalize. rewrite filter_visible_join by apply split_words.
  unfold split. by rewrite concat_split_from.
Qed.

(** X8. The clean-up only touches whitespace: the characters of the
    cleaned text that are not whitespace are those of the raw text, in the
    same order. When the cleaned text has more than 100 characters, what is
    kept before the three dots holds the first of them. *)
Theorem clean_up_keeps_visible_characters s :
  List.filter visible (normalize s) = List.filter visible s
  ∧ ((length (normalize s) ≤ 100)%nat →
     List.filter visible (clean_up s) = List.filter visible s)
  ∧ ((100 < length (normalize s))%nat →
     ∃ kept dropped,
       clean_up s = kept ++ str "..."
       ∧ length kept = 100%nat
       ∧ List.filter visible s = List.filter visible kept ++ dropped).
Proof.
  split_and!.
  - apply filter_visible_normalize.
  - intros Hlen. destruct (clean_up_cases s) as [[_ ->]|[? _]]; [|lia].
    apply filter_visible_normalize.
  - intros Hlen. destruct (clean_up_cases s) as [[? _]|[_ ->]]; [lia|].
    exists (take 100 (normalize s)),
           (List.filter visible (drop 100 (normalize s))).
    split_and!; [done| |].
    + rewrite length_take. lia.
    + by rewrite <- List.filter_app, take_drop, filter_visible_normalize.
Qed.

Lemma clean_up_keeps_visible_characters_witness :
  let s := str "  a ( b" ++ [NL; 9] ++ str "c )  " in
  (length (normalize s) ≤ 100)%nat
  ∧ List.filter visible (clean_up s) = str "a(bc)".
Proof.
  intros s. assert (length (normalize s) ≤ 100)%nat as Hlen by (vm_compute; lia).
  split; [done|].
  destruct (clean_up_keeps_visible_characters s) as (_ & Hshort & _).
  by rewrite Hshort.
Defined.

Lemma filter_visible_nil s : List.filter visible s = [] ↔ all_space s.
Proof.
  induction s as [|c s IH]; [by split; [constructor|]|].
  cbn. unfold visible at 1. destruct (isspace c) eqn:Hc; cbn.
  - rewrite IH. split; [by constructor | by intros [_ ?]%Forall_cons].
  - split; [done|]. intros [? _]%Forall_cons. congruence.
Qed.

(** X9. The reported arguments are empty exactly when the raw argument
    text holds nothing but whitespace (as for [toast()] or a call whose
    parentheses hold only blanks and newlines). *)
Theorem args_empty_iff_only_whitespace s :
  clean_up s = [] ↔ all_space s.
Proof.
  rewrite <- filter_visible_nil. split.
  - intros Hnil. destruct (clean_up_cases s) as [[_ Heq]|[_ Heq]];
      rewrite Heq in Hnil.
    + by rewrite <- filter_visible_normalize, Hnil.
    + by destruct (take 100 (normalize s)).
  - intros Hnil.
    assert (split s = []) as Hsplit.
    { pose proof (concat_split_from s []) as Hc. fold (split s) in Hc.
      rewrite Hnil in Hc. pose proof (split_words s) as Hw.
      destruct (split s) as [|w ws]; [done|].
      apply Forall_cons in Hw as [[Hne _] _]. by destruct w. }
    assert (normalize s = []) as Hnorm by (unfold normalize; by rewrite Hsplit).
    destruct (clean_up_cases s) as [[_ ->]|[Hlen _]]; [done|].
    rewrite Hnorm in Hlen. cbn in Hlen. lia.
Qed.

Lemma args_empty_iff_only_whitespace_witness :
  all_space [SPACE; NL; SPACE] ∧ clean_up [SPACE; NL; SPACE] = [].
Proof.
  assert (all_space [SPACE; NL; SPACE]) as Hws by (by repeat constructor).
  split; [done|]. by apply args_empty_iff_only_whitespace.
Defined.

(** ** The walk *)

Lemma contains_spec sub s : contains sub s = true ↔ occurs_in sub s.
Proof.
  split.
  - induction s as [|c s IH]; cbn [contains].
    + destruct (lit sub []) as [r|] eqn:E; [|done].
      apply lit_Some in E. intros _. by exists [], r.
    + destruct (lit sub (c :: s)) as [r|] eqn:E.
      * apply lit_Some in E. intros _. by exists [], r.
      * intros (pre & post & ->)%IH. by exists (c :: pre), post.
  - intros (pre & post & ->). induction pre as [|c pre IH]; cbn [app].
    + destruct (sub ++ post) eqn:E; cbn [contains];
        rewrite <- E, lit_app; done.
    + cbn [contains]. by destruct (lit sub _).
Qed.

Lemma startswith_spec s prefix :
  startswith s prefix = true ↔ ∃ rest, s = prefix ++ rest.
Proof.
  unfold startswith. destruct (lit prefix s) as [r|] eqn:E.
  - apply lit_Some in E. split; [by exists r | done].
  - split; [done|]. intros [r Hr]. apply lit_Some in Hr. congruence.
Qed.

Lemma endswith_spec s suffix :
  endswith s suffix = true ↔ ∃ stem, s = stem ++ suffix.
Proof.
  unfold endswith. rewrite startswith_spec. split.
  - intros [r Hr]. exists (reverse r).
    by rewrite <- (reverse_involutive s), Hr, reverse_app, reverse_involutive.
  - intros [stem ->]. exists (reverse stem). by rewrite reverse_app.
Qed.

Lemma endswith_any_spec s suffixes :
  endswith_any s suffixes = true
  ↔ ∃ stem suffix, suffix ∈ suffixes ∧ s = stem ++ suffix.
Proof.
  unfold endswith_any. rewrite existsb_exists. split.
  - intros (suffix & Hin & [stem ->]%endswith_spec).
    exists stem, suffix. by rewrite list_elem_of_In.
  - intros (stem & suffix & Hin & ->). exists suffix.
    rewrite <- list_elem_of_In. split; [done|]. apply endswith_spec. by exists stem.
Qed.

Lemma path_join_suffix a b : ∃ pre, path_join a b = pre ++ b.
Proof.
  unfold path_join. destruct (startswith b [SLASH]); [by exists []|].
  destruct (match a with [] => true | _ => endswith a [SLASH] end).
  - by exists a.
  - exists (a ++ [SLASH]). by rewrite <- app_assoc.
Qed.


Abbreviation entries_of files :=
  (concat (List.map (λ fc : text * text, usages_of fc.1 fc.2) files)).

Lemma readable_app read ps ps' :
  readable read (ps ++ ps') = readable read ps ++ readable read ps'.
Proof. apply omap_app. Qed.

Lemma read_failures_app read ps ps' :
  read_failures read (ps ++ ps')
  = read_failures read ps ++ read_failures read ps'.
Proof. apply omap_app. Qed.

Lemma entries_of_app (files files' : list (text * text)) :
  entries_of (files ++ files') = entries_of files ++ entries_of files'.
Proof. by rewrite List.map_app, concat_app. Qed.

Lemma first_unprintable_app print_ok read ps ps' :
  first_unprintable print_ok read (ps ++ ps')
  = match first_unprintable print_ok read ps with
    | Some p => Some p
    | None => first_unprintable print_ok read ps'
    end.
Proof.
  induction ps as [|p ps IH]; [done|]. cbn [app first_unprintable].
  destruct (read p); [done|]. by destruct (print_ok p ReadFailure).
Qed.



(** What a run over the files of one directory does, in terms of the paths
    it opens. *)
Lemma scan_dir_spec print_ok read subdir files usage_list :
  let paths := List.map (path_join subdir)
                 (List.filter (λ file, endswith_any file extensions) files) in
  scan_dir print_ok read subdir files usage_list
  = match first_unprintable print_ok read paths with
    | Some p => Aborted p ReadFailure
    | None =>
        Returned (usage_list ++ entries_of (readable read paths))
          (read_failures read paths)
    end.
Proof.
  revert usage_list. induction files as [|file files IH]; intros usage_list.
  - cbn. by rewrite app_nil_r.
  - cbn [scan_dir List.filter]. cbv zeta in IH.
    destruct (endswith_any file extensions); cbn [negb List.map]; [|apply IH].
    unfold readable, read_failures.
    cbn [omap list_omap first_unprintable].
    fold (readable read) (read_failures read).
    destruct (read (path_join subdir file)) as [content|];
      cbn [fmap option_fmap option_map].
    + rewrite scan_content_appends. cbn [fmap option_fmap option_map].
      rewrite IH. destruct (first_unprintable _ _ _); [done|].
      cbn [List.map concat fst snd app]. by rewrite <- app_assoc.
    + destruct (print_ok (path_join subdir file) ReadFailure); [|done].
      rewrite IH. by destruct (first_unprintable _ _ _).
Qed.

Lemma walk_loop_spec print_ok read walk usage_list :
  walk_loop print_ok read walk usage_list
  = match first_unprintable print_ok read (opened_paths walk) with
    | Some p => Aborted p ReadFailure
    | None =>
        Returned (usage_list ++ entries_of (readable read (opened_paths walk)))
          (read_failures read (opened_paths walk))
    end.
Proof.
  revert usage_list.
  induction walk as [|[[subdir dirs] files] walk IH]; intros usage_list.
  - cbn. by rewrite app_nil_r.
  - cbn [walk_loop]. unfold opened_paths. rewrite bind_cons.
    fold (opened_paths walk).
    destruct (skipped subdir); [apply IH|].
    rewrite scan_dir_spec. cbv zeta. rewrite first_unprintable_app.
    destruct (first_unprintable print_ok read (List.map _ _)); [done|].
    rewrite IH. destruct (first_unprintable _ _ (opened_paths walk)); [done|].
    rewrite readable_app, read_failures_app, entries_of_app.
    by rewrite <- app_assoc.
Qed.




Lemma elem_of_opened_paths walk p :
  p ∈ opened_paths walk ↔
  ∃ subdir dirs files name,
    (subdir, dirs, files) ∈ walk ∧ name ∈ files
    ∧ skipped subdir = false
    ∧ endswith_any name extensions = true
    ∧ p = path_join subdir name.
Proof.
  unfold opened_paths. rewrite list_elem_of_bind. split.
  - intros ([[subdir dirs] files] & Hp & Hin).
    destruct (skipped subdir) eqn:Hskip; [by apply elem_of_nil in Hp|].
    apply list_elem_of_In, in_map_iff in Hp as (name & <- & Hname).
    apply filter_In in Hname as [Hname Hext].
    exists subdir, dirs, files, name.
    split_and!; [done|by apply list_elem_of_In|done..].
  - intros (subdir & dirs & files & name & Hin & Hname & Hskip & Hext & ->).
    exists (subdir, dirs, files). split; [|done]. rewrite Hskip.
    apply list_elem_of_In, in_map, filter_In. by rewrite <- list_elem_of_In.
Qed.

(** X11. Every entry of a returned list comes from a file the walk lists
    in a directory whose path contains neither [node_modules] nor [.git],
    whose name ends in one of .tsx, .ts, .js, .jsx, and that could be read;
    the entry's path is the directory joined with the name (so it ends in
    that suffix too) and the entry is one of those of the file's text. *)
Theorem entries_come_from_kept_source_files print_ok read walk us printed u :
  find_toast_usages_in print_ok read walk = Returned us printed →
  u ∈ us →
  ∃ subdir dirs files name content,
    (subdir, dirs, files) ∈ walk ∧ name ∈ files
    ∧ ¬ occurs_in (str "node_modules") subdir
    ∧ ¬ occurs_in (str ".git") subdir
    ∧ (∃ stem ext, ext ∈ extensions ∧ name = stem ++ ext)
    ∧ file u = path_join subdir name
    ∧ (∃ stem ext, ext ∈ extensions ∧ file u = stem ++ ext)
    ∧ read (file u) = Some content
    ∧ u ∈ usages_of (file u) content.
Proof.
  unfold find_toast_usages_in. rewrite walk_loop_spec.
  destruct (first_unprintable _ _ _); [done|]. intros [= <- _]. cbn [app].
  intros Hu. apply list_elem_of_In, in_concat in Hu as (us & Hus & Hu).
  apply in_map_iff in Hus as ([p content] & <- & Hpc). cbn [fst snd] in Hu.
  apply list_elem_of_In in Hu, Hpc.
  apply list_elem_of_omap in Hpc as (p' & Hp' & Hread).
  destruct (read p') as [content'|] eqn:Hrd; [|done].
  injection Hread as -> ->.
  pose proof (usages_of_file p content) as Hfile.
  rewrite Forall_forall in Hfile. specialize (Hfile u Hu).
  apply elem_of_opened_paths in Hp'
    as (subdir & dirs & files & name & Hin & Hname & Hskip & Hext & ->).
  apply endswith_any_spec in Hext as (stem & ext & Hext & ->).
  unfold skipped in Hskip. apply orb_false_iff in Hskip as [Hnm Hgit].
  exists subdir, dirs, files, (stem ++ ext), content. rewrite Hfile.
  split_and!; [done|done| | |by exists stem, ext|done| |done|done].
  - intros H%contains_spec. congruence.
  - intros H%contains_spec. congruence.
  - destruct (path_join_suffix subdir (stem ++ ext)) as [pre ->].
    exists (pre ++ stem), ext. split; [done|]. by rewrite <- app_assoc.
Qed.

Lemma entries_come_from_kept_source_files_witness :
  let read := λ p, if bool_decide (p = str "src/a.ts")
                   then Some (str "toast(1)") else None in
  let walk := [(str "src", [str "node_modules"], [str "a.ts"; str "b.md"]);
               (str "src/node_modules", [], [str "c.js"])] in
  ∃ u, find_toast_usages_in (λ _ _, true) read walk = Returned [u] []
       ∧ file u = str "src/a.ts".
Proof.
  intros read walk.
  assert (∃ u, find_toast_usages_in (λ _ _, true) read walk = Returned [u] [])
    as [u Hu] by by eexists.
  exists u. split; [done|].
  destruct (entries_come_from_kept_source_files _ read walk [u] [] u Hu)
    as (subdir & dirs & files & name & content & _ & _ & _ & _ & _ & _ & _
        & Hread & _).
  { by left. }
  unfold read in Hread. by case_bool_decide.
Defined.

(** X12. The run depends on the file system only through the files the
    walk opens: two file systems that agree on those end the same way, with
    the same entries and the same reports, whatever the other files hold -
    in particular whatever lies in skipped directories or has another
    suffix. *)
Theorem only_opened_files_matter print_ok read read' walk :
  (∀ p, p ∈ opened_paths walk → read p = read' p) →
  find_toast_usages_in print_ok read walk
  = find_toast_usages_in print_ok read' walk.
Proof.
  intros Hagree. unfold find_toast_usages_in. rewrite !walk_loop_spec.
  revert Hagree. generalize (opened_paths walk) as ps. intros ps Hagree.
  assert (readable read ps = readable read' ps
          ∧ read_failures read ps = read_failures read' ps
          ∧ first_unprintable print_ok read ps
            = first_unprintable print_ok read' ps) as (-> & -> & ->); [|done].
  induction ps as [|p ps IH]; [done|].
  destruct IH as (IH1 & IH2 & IH3); [intros q Hq; apply Hagree; by right|].
  unfold readable, read_failures in *. cbn [omap list_omap first_unprintable].
  rewrite <- (Hagree p) by by left. by rewrite IH1, IH2, IH3.
Qed.

Lemma only_opened_files_matter_witness :
  let walk := [(str "src", [str ".git"], [str "a.ts"; str "notes.txt"]);
               (str "src/.git", [], [str "hook.js"])] in
  let read := λ p, if bool_decide (p = str "src/a.ts")
                   then Some (str "toast(1)") else None in
  let read' := λ p, if bool_decide (p = str "src/a.ts")
                    then Some (str "toast(1)") else Some (str "toast(2)") in
  (∀ p, p ∈ opened_paths walk → read p = read' p)
  ∧ find_toast_usages_in (λ _ _, false) read walk
    = find_toast_usages_in (λ _ _, false) read' walk.
Proof.
  intros walk read read'.
  assert (∀ p, p ∈ opened_paths walk → read p = read' p) as Hagree.
  { intros p Hp. vm_compute in Hp.
    apply elem_of_cons in Hp as [->|Hp]; [done|]. by apply elem_of_nil in Hp. }
  split; [done|]. by apply only_opened_files_matter.
Defined.



